(** * hooks.js: before/after middleware chains around a callback-style method

    A shallow embedding of [src/hooks.js].  The mixin keeps two tables on the
    host object ([_before], [_after]), replaces a method by a wrapper on first
    registration, and drives the hooks through continuation closures.

    Modelling choices.
    - JavaScript values are the inductive [value]; the closures created inside
      [_hook] are defunctionalised: a constructor per closure, carrying the
      variables the closure captures under the names the source gives them.
    - User functions (hooks, hooked methods, callbacks) are function objects
      named by a [fnref]; [fn_length] is their declared parameter count
      ([Function.prototype.length]) and [fn_body] the calls they perform, in
      order, when applied to an argument array.
    - A call returns a [run]: the events the chain engine produced and how the
      call ended (returned, threw, or the interpreter ran out of fuel).
    - The host is one object; [this] is that object in every call.  The two
      tables are JS objects used as maps from own keys, hence [gmap]s; names
      an empty object inherits (such as [toString]) and the names of the
      mixin's own members are left out: [ordinary] lists them.
    - A hook table holds user function objects; the hooks do not register
      or remove hooks while a call is running.
    - [console.assert] and [console.log] only print, they are left out. *)

From stdpp Require Import base list strings gmap.
From Stdlib Require Import ZArith Lia.

Open Scope Z_scope.
Open Scope nat_scope.

(** ** Values *)

(** Identity of a user function object. *)
Definition fnref := nat.

#[warnings="-register-all"]
Inductive value : Type :=
| VUndefined
| VNull
| VBool (b : bool)
| VNum (n : Z)
| VStr (s : string)
| VError (message : string)
| VFun (f : fnref)
(* this[functionName] = function() { ... } *)
| VWrapper (functionName : string) (originalFunction : value)
(* beforeHookArguments[length - 1] = function(beforeHookError) { ... } *)
| VBeforeNext (functionName : string) (originalFunction : value)
    (nextBeforeHookCounter : nat)
    (originalArguments in_beforeHookCallbackArguments : list value)
(* originalFunctionArguments[length - 1] = function(originalFunctionError) { ... } *)
| VOriginalCallback (functionName : string) (originalFunction : value)
    (originalArguments in_beforeHookCallbackArguments : list value)
(* afterHookArguments.push(function(afterHookError) { ... }) *)
| VAfterNext (functionName : string) (originalFunction : value)
    (error : value) (nextAfterHookCounter : nat)
    (originalCallback : value) (originalCallbackArguments : list value).

(** [error instanceof Error] *)
Definition instanceof_Error (v : value) : bool :=
  match v with VError _ => true | _ => false end.

(** [v === null || v === undefined] *)
Definition is_nullish (v : value) : bool :=
  match v with VUndefined | VNull => true | _ => false end.

(** JavaScript truthiness. *)
Definition truthy (v : value) : bool :=
  match v with
  | VUndefined | VNull => false
  | VBool b => b
  | VNum n => negb (n =? 0)%Z
  | VStr s => negb (String.eqb s "")
  | _ => true
  end.

Definition is_function (v : value) : bool :=
  match v with
  | VFun _ | VWrapper _ _ | VBeforeNext _ _ _ _ _
  | VOriginalCallback _ _ _ _ | VAfterNext _ _ _ _ _ _ => true
  | _ => false
  end.

(** ** Arrays *)

(** [a[i]]; out of range (or a negative "index", which names a property that
    is not an element) reads [undefined]. *)
Definition array_get (a : list value) (i : Z) : value :=
  if (i <? 0)%Z then VUndefined else default VUndefined (a !! Z.to_nat i).

(** [a[i] = v] followed by reading the array through [apply]: inside the
    array the slot is replaced, past its end the array grows and the holes
    read [undefined]; a negative [i] sets a property and leaves the elements
    alone. *)
Definition array_set (a : list value) (i : Z) (v : value) : list value :=
  if (i <? 0)%Z then a
  else
    let n := Z.to_nat i in
    if n <? length a then <[n:=v]> a
    else a ++ replicate (n - length a) VUndefined ++ [v].

(** [arguments[0]] as the first declared parameter. *)
Definition first_parameter (arguments : list value) : value :=
  array_get arguments 0.

(** [Array.prototype.slice.call(arguments)] then [shift()]. *)
Definition shifted (arguments : list value) : list value := tail arguments.

(** ** Events and runs *)

Inductive event : Type :=
(* currentBeforeFunction.apply(this, beforeHookArguments) *)
| EBefore (currentBeforeHookCounter : nat) (f : fnref) (args : list value)
(* originalFunction.apply(this, originalFunctionArguments) *)
| EOriginal (originalFunction : value) (args : list value)
(* currentAfterFunction.apply(this, afterHookArguments) *)
| EAfter (currentAfterHookCounter : nat) (f : fnref) (args : list value)
(* callbackFunction.call(this, error) / originalCallback.apply(this, ...) *)
| ECallback (callee : value) (args : list value).

Inductive outcome : Type :=
| Returned
| Threw (e : value)
| OutOfFuel.

Definition run : Type := list event * outcome.

Definition emit (e : event) : run := ([e], Returned).
Definition throw (e : value) : run := ([], Threw e).
Definition skip : run := ([], Returned).

(** Sequencing: what follows runs only when the first part returned. *)
Definition and_then (r : run) (k : unit → run) : run :=
  match r.2 with
  | Returned => (r.1 ++ (k tt).1, (k tt).2)
  | _ => r
  end.

Notation "r >>> k" := (and_then r (λ _, k))
  (at level 90, right associativity).

(** A call a user function performs: the callee and its arguments. *)
Definition invocation : Type := value * list value.

Fixpoint for_each (calls : list invocation) (body : invocation → run) : run :=
  match calls with
  | [] => skip
  | c :: calls => body c >>> for_each calls body
  end.

Definition TypeError (what : string) : value := VError ("TypeError: " +:+ what).

(** ** The host object *)

Record host : Type := Host {
  _before : option (gmap string (list fnref));
  _after : option (gmap string (list fnref));
  (* this[functionName] *)
  methods : gmap string value
}.

Definition _getBeforeHooks (this : host) (name : string) : option (list fnref) :=
  _before this ≫= (.!! name).

Definition _getAfterHooks (this : host) (name : string) : option (list fnref) :=
  _after this ≫= (.!! name).

Definition _totalBeforeHooks (this : host) (name : string) : option nat :=
  length <$> _getBeforeHooks this name.

Definition _totalAfterHooks (this : host) (name : string) : option nat :=
  length <$> _getAfterHooks this name.

(** [!!this._before && !!this._before[functionName]]; arrays are truthy, also
    when empty.  (For an inherited name the code finds the member of
    [Object.prototype] and answers true as soon as there is a table; see
    [ordinary] below.) *)
Definition _isHookedAlready (this : host) (functionName : string) : bool :=
  match _before this with
  | Some table => bool_decide (is_Some (table !! functionName))
  | None => false
  end.

Definition get_method (this : host) (name : string) : value :=
  default VUndefined (methods this !! name).

(** ** Names the tables describe

    [this._before[name]] reads through the prototype of the table: for a
    name that [Object.prototype] defines it finds a function (an object for
    [__proto__]) where the [gmap] has nothing, so that [_isHookedAlready]
    answers true, [_setupHooks] keeps that value instead of an empty list and
    [push] fails.  [_hook] assigns to [this[functionName]] on the host, where
    the mixin keeps its own members and the two tables.  The tables and
    the registration functions below describe the code for the names that
    are neither. *)
Definition inherited_names : list string :=
  ["constructor"; "toString"; "toLocaleString"; "valueOf"; "hasOwnProperty";
   "isPrototypeOf"; "propertyIsEnumerable"; "__proto__"; "__defineGetter__";
   "__defineSetter__"; "__lookupGetter__"; "__lookupSetter__"].

(** The members the mixin adds to the host, and the two tables they keep
    there. *)
Definition mixin_names : list string :=
  ["_setupHooks"; "_totalBeforeHooks"; "_totalAfterHooks"; "_getBeforeHooks";
   "_getAfterHooks"; "_thereAreBeforeHooks"; "_thereAreAfterHooks";
   "_isHookedAlready"; "_hook"; "before"; "after"; "removeAfter";
   "removeBefore"; "_before"; "_after"].

Definition ordinary (name : string) : Prop :=
  name ∉ inherited_names ++ mixin_names.

Global Instance ordinary_dec (name : string) : Decision (ordinary name).
Proof. unfold ordinary. apply _. Defined.

(** The host has the members of the mixin as the mixin defines them: none
    of them is among the methods the host brings or has had wrapped. *)
Definition unmodified (methods : gmap string value) : Prop :=
  Forall (λ name, methods !! name = None) mixin_names.

Global Instance unmodified_dec (methods : gmap string value) :
  Decision (unmodified methods).
Proof. unfold unmodified. apply _. Defined.

(** ** The chain engine ([_hook]) *)

Definition before_message : string :=
  "Your before must have a next argument -- e.g., function(next, ...)".
Definition after_message : string :=
  "Your after must have a next argument -- e.g., function(next, ...)".

(** The override test both continuations make on their own arguments:
    [(e === null || e === undefined) && arguments.length > 1 ||
     (e !== null && e !== undefined)]. *)
Definition passes_arguments (arguments : list value) : bool :=
  let e := first_parameter arguments in
  is_nullish e && (1 <? length arguments) || negb (is_nullish e).

Section Engine.
(** Declared parameter count and behaviour of the user functions. *)
Variable fn_length : fnref → nat.
Variable fn_body : fnref → list value → list invocation.
Variable this : host.

Section Closures.
(** How a function value is applied; the interpreter below ties the
    knot. *)
Variable js_apply : value → list value → run.

(** [callee.apply(this, args)], logged as [ev] when [callee] can be
    called. *)
Definition apply_logged (ev : event) (callee : value) (args : list value) : run :=
  if is_function callee then emit ev >>> js_apply callee args
  else throw (TypeError "not a function").

Definition runAfterHook (functionName : string) (originalFunction : value)
    (error : value) (currentAfterHookCounter : nat)
    (originalCallback : value) (originalCallbackArguments : list value) : run :=
  if instanceof_Error error then
    apply_logged (ECallback originalCallback [error]) originalCallback [error]
  else
    match _totalAfterHooks this functionName with
    | None => throw (TypeError "Cannot read property 'length' of undefined")
    | Some total =>
      (* Are there (more) after functions to call? *)
      if currentAfterHookCounter <? total then
        match _getAfterHooks this functionName ≫= (.!! currentAfterHookCounter) with
        | None => throw (TypeError "Cannot read property 'length' of undefined")
        | Some currentAfterFunction =>
          let nextAfterHookCounter := currentAfterHookCounter + 1 in
          if fn_length currentAfterFunction =? 0 then
            throw (VError after_message)
          else
            let afterHookArguments :=
              originalCallbackArguments ++
              [VAfterNext functionName originalFunction error
                 nextAfterHookCounter originalCallback
                 originalCallbackArguments] in
            emit (EAfter currentAfterHookCounter currentAfterFunction
                    afterHookArguments)
            >>> js_apply (VFun currentAfterFunction) afterHookArguments
        end
      else
        apply_logged (ECallback originalCallback originalCallbackArguments)
          originalCallback originalCallbackArguments
    end.

(** Body of the continuation pushed onto [afterHookArguments]. *)
Definition afterNext (functionName : string) (originalFunction : value)
    (error : value) (nextAfterHookCounter : nat)
    (originalCallback : value) (originalCallbackArguments : list value)
    (arguments : list value) : run :=
  let callbackArguments :=
    if passes_arguments arguments then shifted arguments
    else originalCallbackArguments in
  runAfterHook functionName originalFunction error nextAfterHookCounter
    originalCallback callbackArguments.

(** Body of the callback handed to the original function. *)
Definition originalCallbackBody (functionName : string) (originalFunction : value)
    (originalArguments in_beforeHookCallbackArguments : list value)
    (arguments : list value) : run :=
  let originalFunctionError := first_parameter arguments in
  let originalCallbackArguments :=
    if 0 <? length arguments then arguments
    else in_beforeHookCallbackArguments in
  let originalCallback :=
    array_get originalArguments (Z.of_nat (length originalArguments) - 1) in
  runAfterHook functionName originalFunction originalFunctionError 0
    originalCallback originalCallbackArguments.

Definition runOriginalFunction (functionName : string) (originalFunction : value)
    (originalArguments in_beforeHookCallbackArguments : list value) : run :=
  let originalFunctionArguments :=
    array_set in_beforeHookCallbackArguments
      (Z.of_nat (length originalArguments) - 1)
      (VOriginalCallback functionName originalFunction
         originalArguments in_beforeHookCallbackArguments) in
  if is_function originalFunction then
    emit (EOriginal originalFunction originalFunctionArguments)
    >>> js_apply originalFunction originalFunctionArguments
  else throw (TypeError "Cannot read property 'apply' of undefined").

Definition runBeforeHook (functionName : string) (originalFunction : value)
    (error : value) (currentBeforeHookCounter : nat)
    (originalArguments in_beforeHookCallbackArguments : list value) : run :=
  if instanceof_Error error then
    let callbackFunction :=
      array_get originalArguments (Z.of_nat (length originalArguments) - 1) in
    apply_logged (ECallback callbackFunction [error]) callbackFunction [error]
  else
    match _totalBeforeHooks this functionName with
    | None => throw (TypeError "Cannot read property 'length' of undefined")
    | Some total =>
      if currentBeforeHookCounter <? total then
        match _getBeforeHooks this functionName ≫= (.!! currentBeforeHookCounter) with
        | None => throw (TypeError "Cannot read property 'length' of undefined")
        | Some currentBeforeFunction =>
          let nextBeforeHookCounter := currentBeforeHookCounter + 1 in
          if fn_length currentBeforeFunction =? 0 then
            throw (VError before_message)
          else
            (* arguments eventually passed to the hooks *)
            let beforeHookArguments :=
              array_set originalArguments
                (Z.of_nat (length originalArguments) - 1)
                (VBeforeNext functionName originalFunction
                   nextBeforeHookCounter originalArguments
                   in_beforeHookCallbackArguments) in
            emit (EBefore currentBeforeHookCounter currentBeforeFunction
                    beforeHookArguments)
            >>> js_apply (VFun currentBeforeFunction) beforeHookArguments
        end
      else
        runOriginalFunction functionName originalFunction
          originalArguments in_beforeHookCallbackArguments
    end.

(** Body of the continuation that replaces the last slot of
    [beforeHookArguments]. *)
Definition beforeNext (functionName : string) (originalFunction : value)
    (nextBeforeHookCounter : nat)
    (originalArguments in_beforeHookCallbackArguments : list value)
    (arguments : list value) : run :=
  let beforeHookError := first_parameter arguments in
  let callbackArguments :=
    if passes_arguments arguments then shifted arguments
    else in_beforeHookCallbackArguments in
  runBeforeHook functionName originalFunction beforeHookError
    nextBeforeHookCounter originalArguments callbackArguments.

(** Body of the wrapper installed on the host. *)
Definition wrapper (functionName : string) (originalFunction : value)
    (arguments : list value) : run :=
  runBeforeHook functionName originalFunction VNull 0 arguments arguments.
End Closures.

(** Applying a function value.  A user function performs its calls in
    order; an exception leaves through every caller, none of them has a
    handler.  One unit of fuel is spent per nested application. *)
Fixpoint js_apply (fuel : nat) (callee : value) (arguments : list value) : run :=
  match fuel with
  | 0 => ([], OutOfFuel)
  | S fuel =>
    match callee with
    | VFun f =>
      for_each (fn_body f arguments) (λ c, js_apply fuel c.1 c.2)
    | VWrapper functionName originalFunction =>
      wrapper (js_apply fuel) functionName originalFunction arguments
    | VBeforeNext functionName originalFunction next original in_ =>
      beforeNext (js_apply fuel) functionName originalFunction next
        original in_ arguments
    | VOriginalCallback functionName originalFunction original in_ =>
      originalCallbackBody (js_apply fuel) functionName originalFunction
        original in_ arguments
    | VAfterNext functionName originalFunction error next cb vec =>
      afterNext (js_apply fuel) functionName originalFunction error next
        cb vec arguments
    | _ => throw (TypeError "not a function")
    end
  end.

(** [this[name](...arguments)] *)
Definition call_method (fuel : nat) (name : string) (arguments : list value) : run :=
  js_apply fuel (get_method this name) arguments.
End Engine.

Arguments apply_logged _ _ _ _ /.

(** ** Registration *)

(** [this._before = this._before || {}] and so on: the tables and the two
    lists for [functionName] are created when missing and kept otherwise.
    This is the code for an [ordinary] name; for an inherited one the code
    keeps the member of [Object.prototype] where an empty list is created
    here. *)
Definition _setupHooks (functionName : string) (this : host) : host :=
  let before_table := default ∅ (_before this) in
  let after_table := default ∅ (_after this) in
  {| _before := Some (<[functionName := default [] (before_table !! functionName)]> before_table);
     _after := Some (<[functionName := default [] (after_table !! functionName)]> after_table);
     methods := methods this |}.

(** The part of [_hook] that runs at registration time: the wrapper closes
    over [functionName] and over the value found at [this[functionName]]. *)
Definition _hook (functionName : string) (this : host) : host :=
  if _isHookedAlready this functionName then this
  else
    let this := _setupHooks functionName this in
    let originalFunction := get_method this functionName in
    {| _before := _before this;
       _after := _after this;
       methods := <[functionName := VWrapper functionName originalFunction]> (methods this) |}.

(** [table[functionName].push(fn)]; [None] is the TypeError of reading a
    property of [undefined]. *)
Definition push_hook (table : option (gmap string (list fnref)))
    (functionName : string) (fn : fnref) : option (gmap string (list fnref)) :=
  table ← table;
  hooks ← table !! functionName;
  Some (<[functionName := hooks ++ [fn]]> table).

Definition before (functionName : string) (fn : fnref) (this : host) : option host :=
  let this := _hook functionName this in
  table ← push_hook (_before this) functionName fn;
  Some {| _before := Some table; _after := _after this; methods := methods this |}.

Definition after (functionName : string) (fn : fnref) (this : host) : option host :=
  let this := _hook functionName this in
  table ← push_hook (_after this) functionName fn;
  Some {| _before := _before this; _after := Some table; methods := methods this |}.

(** [currFn !== fnToRemove], where [currFn] is a registered function
    object. *)
Definition not_identical (fnToRemove : value) (currFn : fnref) : bool :=
  match fnToRemove with
  | VFun g => negb (bool_decide (currFn = g))
  | _ => true
  end.

(** The list operation shared by [removeAfter] and [removeBefore]; [rest]
    holds the arguments after [functionName].  With [arguments.length === 1]
    the list is truncated, otherwise [filter] keeps the entries that are not
    identical to [fnToRemove]. *)
Definition remove_hooks (rest : list value) (hooks : list fnref) : list fnref :=
  match rest with
  | [] => []
  | fnToRemove :: _ => filter (λ currFn, not_identical fnToRemove currFn = true) hooks
  end.

(** [None] is the TypeError of reading [length] or [filter] of [undefined],
    which is what the table of an [ordinary] name without a list gives. *)
Definition remove_from (table : option (gmap string (list fnref)))
    (functionName : string) (rest : list value)
    : option (gmap string (list fnref)) :=
  table ← table;
  hooks ← table !! functionName;
  Some (<[functionName := remove_hooks rest hooks]> table).

Definition removeAfter (functionName : string) (rest : list value)
    (this : host) : option host :=
  table ← remove_from (_after this) functionName rest;
  Some {| _before := _before this; _after := Some table; methods := methods this |}.

Definition removeBefore (functionName : string) (rest : list value)
    (this : host) : option host :=
  table ← remove_from (_before this) functionName rest;
  Some {| _before := Some table; _after := _after this; methods := methods this |}.

(** ** Reading a trace *)

(** The hook and target executions of a trace, in order. *)
Inductive stage : Type :=
| SBefore (i : nat) (f : fnref)
| STarget
| SAfter (j : nat) (f : fnref).

Definition stage_of (e : event) : option stage :=
  match e with
  | EBefore i f _ => Some (SBefore i f)
  | EOriginal _ _ => Some STarget
  | EAfter j f _ => Some (SAfter j f)
  | ECallback _ _ => None
  end.

Definition stages (t : list event) : list stage := omap stage_of t.

Definition callback_of (e : event) : option invocation :=
  match e with
  | ECallback callee args => Some (callee, args)
  | _ => None
  end.

(** The deliveries to a terminal callback, in order. *)
Definition callbacks (t : list event) : list invocation := omap callback_of t.

(** What a run does first. *)
Definition first_event (r : run) : option event := head r.1.

(** The trace [t] followed by the run [r]. *)
Definition prepend (t : list event) (r : run) : run := (t ++ r.1, r.2).

(** The last slot of an argument array. *)
Definition last_slot (v : list value) : value :=
  array_get v (Z.of_nat (length v) - 1).

Global Instance stage_eq_dec : EqDecision stage.
Proof. solve_decision. Defined.

(** How often the target was executed. *)
Definition target_runs (t : list event) : nat :=
  length (filter (λ s, s = STarget) (stages t)).

(** What the engine hands to a hook: a before-hook gets the array
    [original] with its last slot replaced by a continuation that carries
    the next counter, an after-hook gets some result array with a
    continuation pushed behind it, which carries that same array. *)
Definition hook_arguments_shape (functionName : string) (originalFunction : value)
    (original : list value) (e : event) : Prop :=
  match e with
  | EBefore i _ v =>
    ∃ current,
      v = array_set original (Z.of_nat (length original) - 1)
            (VBeforeNext functionName originalFunction (i + 1) original current)
  | EAfter j _ v =>
    ∃ error cb result,
      v = result ++ [VAfterNext functionName originalFunction error (j + 1) cb result]
  | _ => True
  end.

(** ** How user functions behave *)

Section Behaviour.
Variable fn_length : fnref → nat.
Variable fn_body : fnref → list value → list invocation.

(** The hook calls its continuation, the last slot of the array it is
    applied to, exactly once, and calls nothing else. *)
Definition calls_next_once (f : fnref) : Prop :=
  ∀ v, ∃ c, fn_body f v = [(last_slot v, c)].

(** ... and what it passes first is not an [Error]: it reports no error. *)
Definition continues (f : fnref) : Prop :=
  ∀ v, ∃ c, fn_body f v = [(last_slot v, c)]
            ∧ instanceof_Error (first_parameter c) = false.

(** ... and what it passes first is an [Error]. *)
Definition reports (f : fnref) (e : value) : Prop :=
  instanceof_Error e = true
  ∧ ∀ v, ∃ rest, fn_body f v = [(last_slot v, e :: rest)].

(** The hooked method, called with [n] arguments, fires the callback in
    slot [n - 1] exactly once. *)
Definition calls_back_once (n : nat) (t : fnref) : Prop :=
  ∀ v, ∃ c, fn_body t v = [(array_get v (Z.of_nat n - 1), c)].

Definition succeeds (n : nat) (t : fnref) : Prop :=
  ∀ v, ∃ c, fn_body t v = [(array_get v (Z.of_nat n - 1), c)]
            ∧ instanceof_Error (first_parameter c) = false.

(** ... and the first thing it passes is the [Error] [e]. *)
Definition fails (n : nat) (t : fnref) (e : value) : Prop :=
  instanceof_Error e = true
  ∧ ∀ v, ∃ rest, fn_body t v = [(array_get v (Z.of_nat n - 1), e :: rest)].

(** The caller's callback does not call back into the engine. *)
Definition returns_quietly (cb : fnref) : Prop :=
  ∀ a, fn_body cb a = [].

(** The hook declares at least the continuation parameter. *)
Definition has_parameters (f : fnref) : Prop := fn_length f ≠ 0.
End Behaviour.

(** The method [name] of the host is the wrapper around the user function
    [t], and [bs] and [as_] are the hooks registered before and after it. *)
Definition installed (this : host) (name : string) (t : fnref)
    (bs as_ : list fnref) : Prop :=
  _getBeforeHooks this name = Some bs
  ∧ _getAfterHooks this name = Some as_
  ∧ methods this !! name = Some (VWrapper name (VFun t)).

(** ** Sequences of registration calls *)

Inductive registration : Type :=
| Before (functionName : string) (fn : fnref)
| After (functionName : string) (fn : fnref)
| RemoveBefore (functionName : string) (rest : list value)
| RemoveAfter (functionName : string) (rest : list value).

Definition register (op : registration) (this : host) : option host :=
  match op with
  | Before functionName fn => before functionName fn this
  | After functionName fn => after functionName fn this
  | RemoveBefore functionName rest => removeBefore functionName rest this
  | RemoveAfter functionName rest => removeAfter functionName rest this
  end.

Fixpoint register_all (ops : list registration) (this : host) : option host :=
  match ops with
  | [] => Some this
  | op :: ops => this ← register op this; register_all ops this
  end.

(** A host that has the mixin and has not used it yet. *)
Definition fresh (methods : gmap string value) : host :=
  {| _before := None; _after := None; methods := methods |}.

(** What registration keeps true of a host that started as [fresh ms]: a
    name with a before-list has an after-list and its method is the wrapper
    around what [ms] holds for it; any other name still has the method of
    [ms]. *)
Definition registration_invariant (ms : gmap string value) (this : host) : Prop :=
  ∀ name,
    match _getBeforeHooks this name with
    | Some _ =>
      is_Some (_getAfterHooks this name)
      ∧ methods this !! name
        = Some (VWrapper name (default VUndefined (ms !! name)))
    | None => methods this !! name = ms !! name
    end.


(** ** The scenario of the test suite

    [Document.prototype.save(foo, bar, callback)] with the [validate] hook
    before it and the [createJob] hook after it. *)
Module Document.
Definition callback : fnref := 0.
Definition save : fnref := 1.
Definition validate : fnref := 2.
Definition createJob : fnref := 3.

Definition fn_length (f : fnref) : nat :=
  match f with
  | 0 => 3   (* function (error, foo, bar) *)
  | 1 => 3   (* function (foo, bar, callback) *)
  | 2 => 3   (* function validate (foo, bar, next) *)
  | 3 => 4   (* function createJob (error, foo, bar, next) *)
  | _ => 0
  end.

(** [this.isValid(foo, bar)]: [foo === 'foo'] *)
Definition isValid (foo : value) : bool :=
  match foo with VStr s => String.eqb s "foo" | _ => false end.

(** [bar++] *)
Definition incr (bar : value) : value :=
  match bar with VNum n => VNum (n + 1) | v => v end.

Definition fn_body (f : fnref) (v : list value) : list invocation :=
  let foo := array_get v 0 in
  let bar := array_get v 1 in
  match f with
  | 1 =>
    if isValid foo then [(array_get v 2, [VNull; VStr "bar"; incr bar])]
    else [(array_get v 2, [VError ":("])]
  | 2 =>
    if isValid foo then [(array_get v 2, [VNull; foo; incr bar])]
    else [(array_get v 2, [VError "Invalid"])]
  | 3 => [(array_get v 3, [])]
  | _ => []
  end.

Definition prototype : host := fresh {[ "save" := VFun save ]}.

Definition setup : list registration :=
  [Before "save" validate; After "save" createJob].
End Document.

(** ** Hooks with fixed behaviour, for concrete runs

    Every hook here takes its continuation from the last slot of its
    arguments, [var next = arguments[arguments.length - 1]], so that the same
    function object can serve before and after a method. *)
Module Lab.
(** the caller's callback, [function (error, result) { }] *)
Definition callback : fnref := 0.
(** [function save(foo, bar, callback) { callback(null, 'saved'); }] *)
Definition save : fnref := 1.
(** [function (x) { next(); }], three distinct function objects *)
Definition pass1 : fnref := 2.
Definition pass2 : fnref := 3.
Definition pass3 : fnref := 4.
(** [function (x) { next(new Error('boom')); }] *)
Definition failing : fnref := 5.
(** [function (x) { next(null, 'a', 'b'); }] *)
Definition override : fnref := 6.
(** [function save(foo, bar, callback) { callback('failed'); }] *)
Definition save_string : fnref := 7.
(** [function () { next(); }]: no declared parameter *)
Definition no_parameters : fnref := 8.
(** [function save(foo, bar, callback) { callback(new Error('bad')); }] *)
Definition save_error : fnref := 9.

Definition fn_length (f : fnref) : nat :=
  match f with
  | 8 => 0
  | 0 => 2
  | 1 | 7 | 9 => 3
  | _ => 1
  end.

Definition fn_body (f : fnref) (v : list value) : list invocation :=
  match f with
  | 0 => []
  | 1 => [(array_get v 2, [VNull; VStr "saved"])]
  | 5 => [(last_slot v, [VError "boom"])]
  | 6 => [(last_slot v, [VNull; VStr "a"; VStr "b"])]
  | 7 => [(array_get v 2, [VStr "failed"])]
  | 9 => [(array_get v 2, [VError "bad"])]
  | _ => [(last_slot v, [])]
  end.

(** The host after [before('save', ...)] for each of [bs] and
    [after('save', ...)] for each of [as_], with [target] as its [save]. *)
Definition hooked (target : fnref) (bs as_ : list fnref) : host :=
  {| _before := Some {[ "save" := bs ]};
     _after := Some {[ "save" := as_ ]};
     methods := {[ "save" := VWrapper "save" (VFun target) ]} |}.

(** [save('x', 'y', callback)] *)
Definition call : list value := [VStr "x"; VStr "y"; VFun callback].
End Lab.

(** ** The remaining helpers of the mixin *)


(** [this._after[name].length > 0] *)
Definition _thereAreAfterHooks (this : host) (name : string) : option bool :=
  (λ hooks, 0 <? length hooks) <$> (_after this ≫= (.!! name)).

(** ** More ways a hook can behave *)

Section MoreBehaviour.
Variable fn_body : fnref → list value → list invocation.

(** [next()]: the hook calls its continuation once, with no arguments. *)
Definition forwards (f : fnref) : Prop :=
  ∀ v, fn_body f v = [(last_slot v, [])].

(** [next(null, ...values)] *)
Definition overrides (f : fnref) (values : list value) : Prop :=
  ∀ v, fn_body f v = [(last_slot v, VNull :: values)].

(** The hook returns without calling anything. *)
Definition stalls (f : fnref) : Prop :=
  ∀ v, fn_body f v = [].

(** [next(); next()] *)
Definition calls_next_twice (f : fnref) : Prop :=
  ∀ v, fn_body f v = [(last_slot v, []); (last_slot v, [])].
End MoreBehaviour.

(** ** Reading a sequence of registration calls *)

(** The function a call adds to the before-list (after-list) of [name]. *)
Definition added_before (name : string) (op : registration) : option fnref :=
  match op with
  | Before functionName fn => if decide (functionName = name) then Some fn else None
  | _ => None
  end.

Definition added_after (name : string) (op : registration) : option fnref :=
  match op with
  | After functionName fn => if decide (functionName = name) then Some fn else None
  | _ => None
  end.

(** The list of at most one function an option stands for. *)
Definition one_or_none (o : option fnref) : list fnref :=
  match o with Some f => [f] | None => [] end.

(** [before] and [after] calls, as opposed to removals. *)
Definition is_addition (op : registration) : bool :=
  match op with
  | Before _ _ | After _ _ => true
  | _ => false
  end.

(** [op] is a [before] or [after] call for [name]. *)
Definition adds_to (name : string) (op : registration) : bool :=
  match op with
  | Before functionName _ | After functionName _ => bool_decide (functionName = name)
  | _ => false
  end.

(** Each name has both of its lists or none: what [_setupHooks] sets up. *)
Definition paired (this : host) : Prop :=
  ∀ name, is_Some (_getBeforeHooks this name) ↔ is_Some (_getAfterHooks this name).

(** ** The names of a sequence of registration calls *)

(** The name a registration call is for. *)
Definition name_of (op : registration) : string :=
  match op with
  | Before functionName _ | After functionName _
  | RemoveBefore functionName _ | RemoveAfter functionName _ => functionName
  end.

(** ** More hooks with fixed behaviour *)
Module Bench.
(** the caller's callback *)
Definition callback : fnref := 0.
(** [function save(foo, bar, callback) { callback(null, 'saved'); }] *)
Definition save : fnref := 1.
(** [function save(foo, bar, callback) { callback(); }] *)
Definition silent_save : fnref := 2.
(** [function (x) { next(); }] *)
Definition forward : fnref := 3.
(** [function (x) { }] *)
Definition stall : fnref := 4.
(** [function (x) { next(); next(); }] *)
Definition twice : fnref := 5.
(** [function (x) { next('warn'); }] *)
Definition warn : fnref := 6.
(** [function (x) { next(null, 'a', 'b'); }] *)
Definition replace : fnref := 7.
(** [function (x) { next(null, 'r'); }] *)
Definition rewrite_result : fnref := 8.
(** [function (x) { next(new Error('boom')); }] *)
Definition failing : fnref := 9.

Definition fn_length (f : fnref) : nat :=
  match f with
  | 0 => 2
  | 1 | 2 => 3
  | _ => 1
  end.

Definition fn_body (f : fnref) (v : list value) : list invocation :=
  match f with
  | 0 => []
  | 1 => [(array_get v 2, [VNull; VStr "saved"])]
  | 2 => [(array_get v 2, [])]
  | 4 => []
  | 5 => [(last_slot v, []); (last_slot v, [])]
  | 6 => [(last_slot v, [VStr "warn"])]
  | 7 => [(last_slot v, [VNull; VStr "a"; VStr "b"])]
  | 8 => [(last_slot v, [VNull; VStr "r"])]
  | 9 => [(last_slot v, [VError "boom"])]
  | _ => [(last_slot v, [])]
  end.

(** [save('x', 'y', callback)] *)
Definition call : list value := [VStr "x"; VStr "y"; VFun callback].
End Bench.

(** ** Basic facts *)

Lemma and_then_skip (r : run) : (r >>> skip) = r.
Proof.
  destruct r as [t o]. unfold and_then; simpl.
  destruct o; simpl; by rewrite ?app_nil_r.
Qed.

Lemma emit_and_then (e : event) (r : run) : (emit e >>> r) = prepend [e] r.
Proof. reflexivity. Qed.

Lemma prepend_prepend (t1 t2 : list event) (r : run) :
  prepend t1 (prepend t2 r) = prepend (t1 ++ t2) r.
Proof. unfold prepend; simpl. by rewrite app_assoc. Qed.

Lemma prepend_nil (r : run) : prepend [] r = r.
Proof. by destruct r. Qed.

Lemma prepend_pair (t1 t2 : list event) (o : outcome) :
  prepend t1 (t2, o) = (t1 ++ t2, o).
Proof. reflexivity. Qed.

Lemma stages_app (t1 t2 : list event) : stages (t1 ++ t2) = stages t1 ++ stages t2.
Proof. apply omap_app. Qed.

Lemma callbacks_app (t1 t2 : list event) :
  callbacks (t1 ++ t2) = callbacks t1 ++ callbacks t2.
Proof. apply omap_app. Qed.

Lemma drop_cons_inv {A} (l : list A) (n : nat) (x : A) (k : list A) :
  drop n l = x :: k → l !! n = Some x ∧ drop (n + 1) l = k.
Proof.
  intros H. split.
  - rewrite <- (Nat.add_0_r n), <- lookup_drop, H. reflexivity.
  - rewrite <- drop_drop, H. reflexivity.
Qed.

Lemma array_get_last (leading : list value) (x : value) :
  array_get (leading ++ [x]) (Z.of_nat (length (leading ++ [x])) - 1) = x.
Proof.
  unfold array_get. rewrite length_app; simpl.
  destruct (Z.ltb_spec (Z.of_nat (length leading + 1) - 1) 0) as [H|H]; [lia|].
  replace (Z.to_nat (Z.of_nat (length leading + 1) - 1)) with (length leading) by lia.
  by rewrite list_lookup_middle.
Qed.

Lemma last_slot_snoc (leading : list value) (x : value) :
  last_slot (leading ++ [x]) = x.
Proof. apply array_get_last. Qed.

Lemma array_set_last (leading : list value) (x v : value) :
  array_set (leading ++ [x]) (Z.of_nat (length (leading ++ [x])) - 1) v
  = leading ++ [v].
Proof.
  unfold array_set. rewrite length_app; simpl.
  destruct (Z.ltb_spec (Z.of_nat (length leading + 1) - 1) 0) as [H|H]; [lia|].
  replace (Z.to_nat (Z.of_nat (length leading + 1) - 1)) with (length leading) by lia.
  destruct (Nat.ltb_spec (length leading) (length leading + 1)) as [H'|H']; [|lia].
  replace (length leading) with (length leading + 0) at 1 by lia.
  by rewrite insert_app_r.
Qed.

Lemma replace_last_slot (original leading : list value) (x v : value) :
  original = leading ++ [x] →
  array_set original (Z.of_nat (length original) - 1) v = leading ++ [v].
Proof. intros ->. apply array_set_last. Qed.

Lemma last_slot_original (original leading : list value) (x : value) :
  original = leading ++ [x] → last_slot original = x.
Proof. intros ->. apply last_slot_snoc. Qed.

Lemma array_get_set (a : list value) (i : Z) (v : value) :
  (0 ≤ i)%Z → array_get (array_set a i v) i = v.
Proof.
  intros Hi. unfold array_get, array_set.
  destruct (Z.ltb_spec i 0) as [H|_]; [lia|].
  destruct (Nat.ltb_spec (Z.to_nat i) (length a)) as [Hlt|Hge].
  - by rewrite list_lookup_insert_eq.
  - rewrite lookup_app_r by done.
    rewrite lookup_app_r by (rewrite length_replicate; lia).
    rewrite length_replicate, Nat.sub_diag. reflexivity.
Qed.

(** Writing slot [n - 1] of an array of [n - 1] values appends. *)
Lemma array_set_append (rest : list value) (n : nat) (v : value) :
  length rest + 1 = n →
  array_set rest (Z.of_nat n - 1) v = rest ++ [v].
Proof.
  intros Hn. unfold array_set.
  destruct (Z.ltb_spec (Z.of_nat n - 1) 0) as [H|H]; [lia|].
  replace (Z.to_nat (Z.of_nat n - 1)) with (length rest) by lia.
  rewrite Nat.ltb_irrefl, Nat.sub_diag. reflexivity.
Qed.

(** ** One step of the engine *)

Section Steps.
Variable fn_length : fnref → nat.
Variable fn_body : fnref → list value → list invocation.
Variable this : host.

Local Abbreviation interp := (js_apply fn_length fn_body this).

Lemma js_apply_once (F : nat) (f : fnref) (v : list value) (k : value)
    (c : list value) :
  fn_body f v = [(k, c)] →
  interp (S F) (VFun f) v = interp F k c.
Proof. intros H. simpl. rewrite H. simpl. apply and_then_skip. Qed.

Lemma js_apply_quiet (F : nat) (f : fnref) (v : list value) :
  fn_body f v = [] → interp (S F) (VFun f) v = skip.
Proof. intros H. simpl. by rewrite H. Qed.

Lemma js_apply_before_next F functionName originalFunction next original in_ c :
  interp (S F) (VBeforeNext functionName originalFunction next original in_) c
  = beforeNext fn_length this (interp F) functionName originalFunction next
      original in_ c.
Proof. reflexivity. Qed.

Lemma js_apply_original_callback F functionName originalFunction original in_ c :
  interp (S F) (VOriginalCallback functionName originalFunction original in_) c
  = originalCallbackBody fn_length this (interp F) functionName
      originalFunction original in_ c.
Proof. reflexivity. Qed.

Lemma js_apply_after_next F functionName originalFunction error next cb vec c :
  interp (S F) (VAfterNext functionName originalFunction error next cb vec) c
  = afterNext fn_length this (interp F) functionName originalFunction
      error next cb vec c.
Proof. reflexivity. Qed.

(** Delivery to a callback that returns quietly. *)
Lemma deliver (F : nat) (cb : fnref) (args : list value) :
  returns_quietly fn_body cb →
  apply_logged (interp (S F)) (ECallback (VFun cb) args) (VFun cb) args
  = ([ECallback (VFun cb) args], Returned).
Proof.
  intros Hcb. unfold apply_logged. cbn [is_function].
  rewrite js_apply_quiet by apply Hcb. reflexivity.
Qed.

Section Tables.
Variables (functionName : string) (originalFunction : value).
Variables (bs as_ : list fnref).
Hypothesis Hbs : _getBeforeHooks this functionName = Some bs.
Hypothesis Has : _getAfterHooks this functionName = Some as_.

Section AnyApply.
Variable app : value → list value → run.

Lemma runBeforeHook_hook error i f original in_ :
  instanceof_Error error = false →
  bs !! i = Some f →
  fn_length f ≠ 0 →
  runBeforeHook fn_length this app functionName originalFunction
    error i original in_
  = prepend
      [EBefore i f
         (array_set original (Z.of_nat (length original) - 1)
            (VBeforeNext functionName originalFunction (i + 1) original in_))]
      (app (VFun f)
         (array_set original (Z.of_nat (length original) - 1)
            (VBeforeNext functionName originalFunction (i + 1) original in_))).
Proof.
  intros He Hi Hlen. unfold runBeforeHook, _totalBeforeHooks.
  rewrite He, Hbs. simpl.
  destruct (Nat.ltb_spec i (length bs)) as [Hlt|Hge].
  - rewrite Hi. destruct (Nat.eqb_spec (fn_length f) 0) as [|_]; [done|].
    apply emit_and_then.
  - apply lookup_lt_Some in Hi. lia.
Qed.

Lemma runBeforeHook_no_parameters error i f original in_ :
  instanceof_Error error = false →
  bs !! i = Some f →
  fn_length f = 0 →
  runBeforeHook fn_length this app functionName originalFunction
    error i original in_
  = throw (VError before_message).
Proof.
  intros He Hi Hlen. unfold runBeforeHook, _totalBeforeHooks.
  rewrite He, Hbs. simpl.
  destruct (Nat.ltb_spec i (length bs)) as [Hlt|Hge].
  - rewrite Hi, Hlen. reflexivity.
  - apply lookup_lt_Some in Hi. lia.
Qed.

Lemma runBeforeHook_end error i original in_ :
  instanceof_Error error = false →
  length bs ≤ i →
  runBeforeHook fn_length this app functionName originalFunction
    error i original in_
  = runOriginalFunction app functionName originalFunction original in_.
Proof.
  intros He Hi. unfold runBeforeHook, _totalBeforeHooks.
  rewrite He, Hbs. simpl.
  destruct (Nat.ltb_spec i (length bs)) as [Hlt|Hge]; [lia|done].
Qed.

Lemma runBeforeHook_error error i original in_ :
  instanceof_Error error = true →
  runBeforeHook fn_length this app functionName originalFunction
    error i original in_
  = apply_logged app
      (ECallback (last_slot original) [error]) (last_slot original) [error].
Proof. intros He. unfold runBeforeHook. by rewrite He. Qed.

Lemma runAfterHook_error error j cb vec :
  instanceof_Error error = true →
  runAfterHook fn_length this app functionName originalFunction
    error j cb vec
  = apply_logged app (ECallback cb [error]) cb [error].
Proof. intros He. unfold runAfterHook. by rewrite He. Qed.

Lemma runAfterHook_hook error j f cb vec :
  instanceof_Error error = false →
  as_ !! j = Some f →
  fn_length f ≠ 0 →
  runAfterHook fn_length this app functionName originalFunction
    error j cb vec
  = prepend
      [EAfter j f
         (vec ++ [VAfterNext functionName originalFunction error (j + 1) cb vec])]
      (app (VFun f)
         (vec ++ [VAfterNext functionName originalFunction error (j + 1) cb vec])).
Proof.
  intros He Hj Hlen. unfold runAfterHook, _totalAfterHooks.
  rewrite He, Has. simpl.
  destruct (Nat.ltb_spec j (length as_)) as [Hlt|Hge].
  - rewrite Hj. destruct (Nat.eqb_spec (fn_length f) 0) as [|_]; [done|].
    apply emit_and_then.
  - apply lookup_lt_Some in Hj. lia.
Qed.

Lemma runAfterHook_no_parameters error j f cb vec :
  instanceof_Error error = false →
  as_ !! j = Some f →
  fn_length f = 0 →
  runAfterHook fn_length this app functionName originalFunction
    error j cb vec
  = throw (VError after_message).
Proof.
  intros He Hj Hlen. unfold runAfterHook, _totalAfterHooks.
  rewrite He, Has. simpl.
  destruct (Nat.ltb_spec j (length as_)) as [Hlt|Hge].
  - rewrite Hj, Hlen. reflexivity.
  - apply lookup_lt_Some in Hj. lia.
Qed.

Lemma runAfterHook_end error j cb vec :
  instanceof_Error error = false →
  length as_ ≤ j →
  runAfterHook fn_length this app functionName originalFunction
    error j cb vec
  = apply_logged app (ECallback cb vec) cb vec.
Proof.
  intros He Hj. unfold runAfterHook, _totalAfterHooks.
  rewrite He, Has. simpl.
  destruct (Nat.ltb_spec j (length as_)) as [Hlt|Hge]; [lia|done].
Qed.
End AnyApply.

(** *** Runs of consecutive hooks *)

Variable original : list value.

Local Abbreviation shaped :=
  (Forall (hook_arguments_shape functionName originalFunction original)).

(** After-hooks [pre], registered from index [j] on, that each call
    their continuation once: the chain runs them in order and arrives
    at index [j + length pre] with the [error] it started with. *)
Lemma after_prefix (cb : value) (pre : list fnref) :
  ∀ rest j error vec F,
    drop j as_ = pre ++ rest →
    Forall (calls_next_once fn_body) pre →
    Forall (has_parameters fn_length) pre →
    instanceof_Error error = false →
    ∃ tr vec',
      runAfterHook fn_length this (interp (2 * length pre + F))
        functionName originalFunction error j cb vec
      = prepend tr
          (runAfterHook fn_length this (interp F)
             functionName originalFunction error (j + length pre) cb vec')
      ∧ stages tr = imap (λ k f, SAfter (j + k) f) pre
      ∧ callbacks tr = []
      ∧ shaped tr.
Proof.
  induction pre as [|f pre IH]; intros rest j error vec F Hdrop Honce Hpar He.
  - exists [], vec. simpl. rewrite Nat.add_0_r, prepend_nil. done.
  - apply drop_cons_inv in Hdrop as [Hj Hdrop].
    apply Forall_cons in Honce as [Hf Honce].
    apply Forall_cons in Hpar as [Hlen Hpar].
    replace (2 * length (f :: pre) + F)
      with (S (S (2 * length pre + F))) by (simpl; lia).
    rewrite (runAfterHook_hook _ _ _ f) by done.
    destruct (Hf (vec ++ [VAfterNext functionName originalFunction error
                            (j + 1) cb vec])) as [c Hc].
    rewrite last_slot_snoc in Hc.
    rewrite (js_apply_once _ _ _ _ _ Hc).
    rewrite js_apply_after_next. unfold afterNext.
    destruct (IH rest (j + 1) error
                (if passes_arguments c then shifted c else vec) F)
      as (tr & vec' & Heq & Hst & Hcb & Hsh); try done.
    eexists (_ :: tr), vec'. rewrite Heq, prepend_prepend.
    replace (j + 1 + length pre) with (j + length (f :: pre)) by (simpl; lia).
    split; [reflexivity|]. split; [|split].
    + cbn. unfold stages in Hst. rewrite Hst. rewrite Nat.add_0_r. f_equal.
      apply imap_ext. intros k x _. simpl. f_equal. lia.
    + done.
    + constructor; [|done]. simpl. eauto.
Qed.

(** The whole after-chain, entered with any [error], when every
    after-hook calls its continuation once: one delivery. *)
Lemma after_all (cb : fnref) (error : value) (vec : list value) (F : nat) :
  Forall (calls_next_once fn_body) as_ →
  Forall (has_parameters fn_length) as_ →
  returns_quietly fn_body cb →
  ∃ tr d,
    runAfterHook fn_length this (interp (2 * length as_ + S F))
      functionName originalFunction error 0 (VFun cb) vec
    = (tr, Returned)
    ∧ callbacks tr = [(VFun cb, d)]
    ∧ stages tr = (if instanceof_Error error then []
                   else imap (λ k f, SAfter k f) as_)
    ∧ (instanceof_Error error = true → d = [error])
    ∧ shaped tr.
Proof.
  intros Honce Hpar Hcb.
  destruct (instanceof_Error error) eqn:He.
  - exists [ECallback (VFun cb) [error]], [error].
    rewrite runAfterHook_error by done.
    replace (2 * length as_ + S F) with (S (2 * length as_ + F)) by lia.
    rewrite deliver by done.
    repeat split; try done. repeat constructor.
  - destruct (after_prefix (VFun cb) as_ [] 0 error vec (S F))
      as (tr & vec' & Heq & Hst & Hcbs & Hsh); try done.
    { by rewrite app_nil_r. }
    rewrite Heq. rewrite runAfterHook_end by (done || simpl; lia).
    rewrite deliver by done.
    exists (tr ++ [ECallback (VFun cb) vec']), vec'.
    rewrite prepend_pair. split; [done|].
    rewrite callbacks_app, stages_app, Hcbs, Hst. simpl.
    rewrite app_nil_r. repeat split; try done.
    apply Forall_app. split; [done|]. repeat constructor.
Qed.

Section BeforeChain.
Variables (leading : list value) (receiver : value).
Hypothesis Horiginal : original = leading ++ [receiver].

(** Before-hooks [pre], registered from index [i] on, that each
    continue: the chain runs them in order and arrives at index
    [i + length pre] without an error. *)
Lemma before_prefix (pre : list fnref) :
  ∀ rest i error in_ F,
    drop i bs = pre ++ rest →
    Forall (continues fn_body) pre →
    Forall (has_parameters fn_length) pre →
    instanceof_Error error = false →
    ∃ tr error' in',
      runBeforeHook fn_length this (interp (2 * length pre + F))
        functionName originalFunction error i original in_
      = prepend tr
          (runBeforeHook fn_length this (interp F)
             functionName originalFunction error' (i + length pre)
             original in')
      ∧ instanceof_Error error' = false
      ∧ stages tr = imap (λ k f, SBefore (i + k) f) pre
      ∧ callbacks tr = []
      ∧ shaped tr.
Proof.
  induction pre as [|f pre IH]; intros rest i error in_ F Hdrop Hcont Hpar He.
  - exists [], error, in_. simpl. rewrite Nat.add_0_r, prepend_nil. done.
  - apply drop_cons_inv in Hdrop as [Hi Hdrop].
    apply Forall_cons in Hcont as [Hf Hcont].
    apply Forall_cons in Hpar as [Hlen Hpar].
    replace (2 * length (f :: pre) + F)
      with (S (S (2 * length pre + F))) by (simpl; lia).
    rewrite (runBeforeHook_hook _ _ _ f) by done.
    pose proof (replace_last_slot original leading receiver
                  (VBeforeNext functionName originalFunction (i + 1)
                     original in_) Horiginal) as Hv.
    destruct (Hf (leading ++ [VBeforeNext functionName originalFunction
                                (i + 1) original in_])) as (c & Hc & Hok).
    rewrite last_slot_snoc in Hc.
    rewrite Hv, (js_apply_once _ _ _ _ _ Hc).
    rewrite js_apply_before_next. unfold beforeNext.
    destruct (IH rest (i + 1) (first_parameter c)
                (if passes_arguments c then shifted c else in_) F)
      as (tr & error' & in' & Heq & He' & Hst & Hcb & Hsh); try done.
    eexists (_ :: tr), error', in'. rewrite Heq, prepend_prepend.
    replace (i + 1 + length pre) with (i + length (f :: pre)) by (simpl; lia).
    split; [reflexivity|]. split; [done|]. split; [|split].
    + cbn. unfold stages in Hst. rewrite Hst. rewrite Nat.add_0_r. f_equal.
      apply imap_ext. intros k x _. simpl. f_equal. lia.
    + done.
    + constructor; [|done]. simpl. exists in_. by rewrite Hv.
Qed.

Lemma wrapper_call (F : nat) :
  interp (S F) (VWrapper functionName originalFunction) original
  = runBeforeHook fn_length this (interp F) functionName originalFunction
      VNull 0 original original.
Proof. reflexivity. Qed.

(** Every before-hook continues: the chain reaches the original
    function. *)
Lemma before_all (F : nat) :
  Forall (continues fn_body) bs →
  Forall (has_parameters fn_length) bs →
  ∃ tr in',
    runBeforeHook fn_length this (interp (2 * length bs + F))
      functionName originalFunction VNull 0 original original
    = prepend tr
        (runOriginalFunction (interp F) functionName originalFunction
           original in')
    ∧ stages tr = imap SBefore bs
    ∧ callbacks tr = []
    ∧ shaped tr.
Proof.
  intros Hcont Hpar.
  destruct (before_prefix bs [] 0 VNull original F)
    as (tr & error' & in' & Heq & He' & Hst & Hcb & Hsh); try done.
  { by rewrite app_nil_r. }
  exists tr, in'. rewrite Heq.
  rewrite runBeforeHook_end by (done || simpl; lia). done.
Qed.

(** The original function, a user function that fires the callback
    in slot [length original - 1] once with [c]. *)
Lemma target_step (t : fnref) (in_ c : list value) (F : nat) :
  originalFunction = VFun t →
  fn_body t
    (array_set in_ (Z.of_nat (length original) - 1)
       (VOriginalCallback functionName originalFunction original in_))
  = [(VOriginalCallback functionName originalFunction original in_, c)] →
  runOriginalFunction (interp (S (S F))) functionName originalFunction
    original in_
  = prepend
      [EOriginal originalFunction
         (array_set in_ (Z.of_nat (length original) - 1)
            (VOriginalCallback functionName originalFunction original in_))]
      (runAfterHook fn_length this (interp F) functionName originalFunction
         (first_parameter c) 0 receiver
         (if 0 <? length c then c else in_)).
Proof.
  intros Ht Hc. unfold runOriginalFunction.
  rewrite Ht at 1. cbn [is_function]. rewrite emit_and_then. f_equal.
  rewrite Ht at 1. rewrite (js_apply_once _ _ _ _ _ Hc).
  rewrite js_apply_original_callback. unfold originalCallbackBody.
  by rewrite (last_slot_original _ _ _ Horiginal : array_get _ _ = _).
Qed.

Lemma target_slot (in_ : list value) (v : value) :
  array_get (array_set in_ (Z.of_nat (length original) - 1) v)
    (Z.of_nat (length original) - 1) = v.
Proof.
  apply array_get_set. rewrite Horiginal, length_app. simpl. lia.
Qed.
End BeforeChain.
End Tables.
End Steps.

(** ** Whole calls of a hooked method *)

Section Calls.
Variable fn_length : fnref → nat.
Variable fn_body : fnref → list value → list invocation.
Variable this : host.
Variables (name : string) (t cb : fnref) (bs as_ : list fnref).
Variable leading : list value.
Hypothesis Hinstalled : installed this name t bs as_.
Hypothesis Hcb : returns_quietly fn_body cb.

Local Abbreviation interp := (js_apply fn_length fn_body this).
Local Abbreviation original := (leading ++ [VFun cb]).
Local Abbreviation shaped :=
  (Forall (hook_arguments_shape name (VFun t) original)).

Lemma call_method_wrapper (F : nat) :
  call_method fn_length fn_body this (S F) name original
  = runBeforeHook fn_length this (interp F) name (VFun t)
      VNull 0 original original.
Proof.
  destruct Hinstalled as (_ & _ & Hm).
  unfold call_method, get_method. rewrite Hm. reflexivity.
Qed.

(** The original function fires its callback once with [c]; before that
    every before-hook continued. *)
Lemma call_reaches_after_chain (F : nat) :
  Forall (continues fn_body) bs →
  Forall (has_parameters fn_length) bs →
  calls_back_once fn_body (length original) t →
  ∃ tr c in',
    call_method fn_length fn_body this (S (2 * length bs + S (S F)))
      name original
    = prepend tr
        (runAfterHook fn_length this (interp F) name (VFun t)
           (first_parameter c) 0 (VFun cb)
           (if 0 <? length c then c else in'))
    ∧ fn_body t
        (array_set in' (Z.of_nat (length original) - 1)
           (VOriginalCallback name (VFun t) original in'))
      = [(VOriginalCallback name (VFun t) original in', c)]
    ∧ stages tr = imap SBefore bs ++ [STarget]
    ∧ callbacks tr = []
    ∧ shaped tr.
Proof.
  intros Hcont Hpar Ht.
  destruct Hinstalled as (Hbs & Has & _).
  rewrite call_method_wrapper.
  destruct (before_all fn_length fn_body this name (VFun t) bs Hbs
              original leading (VFun cb) eq_refl (S (S F)) Hcont Hpar)
    as (tr & in' & Heq & Hst & Hcbs & Hsh).
  destruct (Ht (array_set in' (Z.of_nat (length original) - 1)
                  (VOriginalCallback name (VFun t) original in')))
    as [c Hc].
  rewrite (target_slot original leading (VFun cb) eq_refl) in Hc.
  rewrite Heq.
  rewrite (target_step fn_length fn_body this name (VFun t) original
             leading (VFun cb) eq_refl t in' c F eq_refl Hc).
  rewrite prepend_prepend.
  eexists _, c, in'. split; [reflexivity|]. split; [done|].
  rewrite stages_app, callbacks_app, Hst, Hcbs. simpl.
  repeat split; try done.
  apply Forall_app. split; [done|]. repeat constructor.
Qed.

(** No hook reports an error and the original function succeeds. *)
Lemma call_succeeds (fuel : nat) :
  Forall (continues fn_body) bs →
  Forall (has_parameters fn_length) bs →
  Forall (calls_next_once fn_body) as_ →
  Forall (has_parameters fn_length) as_ →
  succeeds fn_body (length original) t →
  2 * length bs + 2 * length as_ + 4 ≤ fuel →
  ∃ tr d,
    call_method fn_length fn_body this fuel name original = (tr, Returned)
    ∧ stages tr = imap SBefore bs ++ [STarget] ++ imap SAfter as_
    ∧ callbacks tr = [(VFun cb, d)]
    ∧ shaped tr.
Proof.
  intros Hcont Hpar Hcont' Hpar' Ht Hfuel.
  pose (F := fuel - (2 * length bs + 2 * length as_ + 4)).
  replace fuel with (S (2 * length bs + S (S (2 * length as_ + S F))))
    by (unfold F; lia).
  assert (calls_back_once fn_body (length original) t) as Ht'.
  { intros v. destruct (Ht v) as (c & Hc & _). eauto. }
  destruct (call_reaches_after_chain (2 * length as_ + S F) Hcont Hpar Ht')
    as (tr & c & in' & Heq & Hc & Hst & Hcbs & Hsh).
  assert (instanceof_Error (first_parameter c) = false) as Hok.
  { destruct (Ht (array_set in' (Z.of_nat (length original) - 1)
                    (VOriginalCallback name (VFun t) original in')))
      as (c' & Hc' & Hok).
    rewrite Hc in Hc'. by simplify_eq. }
  destruct Hinstalled as (_ & Has & _).
  destruct (after_all fn_length fn_body this name (VFun t) as_ Has
              original cb (first_parameter c)
              (if 0 <? length c then c else in') F Hcont' Hpar' Hcb)
    as (tr' & d & Heq' & Hcbs' & Hst' & _ & Hsh').
  rewrite Heq, Heq', prepend_pair. rewrite Hok in Hst'.
  exists (tr ++ tr'), d. split; [done|].
  rewrite stages_app, callbacks_app, Hst, Hst', Hcbs, Hcbs'.
  rewrite <- app_assoc. repeat split; try done.
  by apply Forall_app.
Qed.

(** A before-hook's error goes straight to the caller's callback. *)
Lemma before_error_delivers (F i : nat) (error : value) (in_ : list value) :
  instanceof_Error error = true →
  runBeforeHook fn_length this (interp (S F)) name (VFun t)
    error i original in_
  = ([ECallback (VFun cb) [error]], Returned).
Proof.
  intros He. rewrite runBeforeHook_error by done.
  rewrite last_slot_snoc. by apply deliver.
Qed.

(** Every hook calls its continuation once, whatever it passes, and the
    original function fires its callback once: one delivery. *)
Lemma before_any (suffix : list fnref) :
  ∀ i error in_ F,
    drop i bs = suffix →
    Forall (calls_next_once fn_body) suffix →
    Forall (has_parameters fn_length) suffix →
    calls_back_once fn_body (length original) t →
    Forall (calls_next_once fn_body) as_ →
    Forall (has_parameters fn_length) as_ →
    ∃ tr d,
      runBeforeHook fn_length this
        (interp (2 * length suffix + S (S (2 * length as_ + S F))))
        name (VFun t) error i original in_
      = (tr, Returned)
      ∧ callbacks tr = [(VFun cb, d)]
      ∧ shaped tr.
Proof.
  destruct Hinstalled as (Hbs & Has & _).
  induction suffix as [|f suffix IH];
    intros i error in_ F Hdrop Honce Hpar Ht Honce' Hpar'.
  - cbn [length]. rewrite Nat.mul_0_r, Nat.add_0_l.
    destruct (instanceof_Error error) eqn:He.
    { exists [ECallback (VFun cb) [error]], [error].
      rewrite before_error_delivers by done.
      repeat split; repeat constructor. }
    rewrite (runBeforeHook_end fn_length this name (VFun t) bs Hbs) by
      (done || apply (f_equal length) in Hdrop;
               rewrite length_drop in Hdrop; simpl in Hdrop; lia).
    destruct (Ht (array_set in_ (Z.of_nat (length original) - 1)
                    (VOriginalCallback name (VFun t) original in_)))
      as [c Hc].
    rewrite (target_slot original leading (VFun cb) eq_refl) in Hc.
    rewrite (target_step fn_length fn_body this name (VFun t) original
               leading (VFun cb) eq_refl t in_ c _ eq_refl Hc).
    destruct (after_all fn_length fn_body this name (VFun t) as_ Has
                original cb (first_parameter c)
                (if 0 <? length c then c else in_) F Honce' Hpar' Hcb)
      as (tr' & d & Heq' & Hcbs' & _ & _ & Hsh').
    rewrite Heq', prepend_pair. eexists _, d. split; [done|].
    rewrite callbacks_app, Hcbs'. split; [done|].
    constructor; [exact I|done].
  - destruct (instanceof_Error error) eqn:He.
    { exists [ECallback (VFun cb) [error]], [error].
      replace (2 * length (f :: suffix) + S (S (2 * length as_ + S F)))
        with (S (2 * length (f :: suffix) + S (2 * length as_ + S F)))
        by lia.
      rewrite before_error_delivers by done.
      repeat split; repeat constructor. }
    apply drop_cons_inv in Hdrop as [Hi Hdrop].
    apply Forall_cons in Honce as [Hf Honce].
    apply Forall_cons in Hpar as [Hlen Hpar].
    replace (2 * length (f :: suffix) + S (S (2 * length as_ + S F)))
      with (S (S (2 * length suffix + S (S (2 * length as_ + S F)))))
      by (simpl; lia).
    rewrite (runBeforeHook_hook fn_length this name (VFun t) bs Hbs _ _ _ f)
      by done.
    rewrite (replace_last_slot original leading (VFun cb) _ eq_refl).
    destruct (Hf (leading ++ [VBeforeNext name (VFun t) (i + 1)
                                original in_])) as [c Hc].
    rewrite last_slot_snoc in Hc.
    rewrite (js_apply_once _ _ _ _ _ _ _ _ Hc).
    rewrite js_apply_before_next. unfold beforeNext.
    destruct (IH (i + 1) (first_parameter c)
                (if passes_arguments c then shifted c else in_) F)
      as (tr & d & Heq & Hcbs & Hsh); try done.
    rewrite Heq, prepend_pair. eexists _, d. split; [done|].
    rewrite callbacks_app, Hcbs. split; [done|].
    constructor; [|done]. simpl. exists in_.
    by rewrite (replace_last_slot original leading (VFun cb) _ eq_refl).
Qed.

(** The before-hooks ahead of index [i] continue: the chain arrives at
    index [i]. *)
Lemma call_reaches_before (i F : nat) :
  i ≤ length bs →
  Forall (continues fn_body) (take i bs) →
  Forall (has_parameters fn_length) (take i bs) →
  ∃ tr error in_,
    call_method fn_length fn_body this (S (2 * i + F)) name original
    = prepend tr
        (runBeforeHook fn_length this (interp F) name (VFun t)
           error i original in_)
    ∧ instanceof_Error error = false
    ∧ stages tr = imap SBefore (take i bs)
    ∧ callbacks tr = []
    ∧ shaped tr.
Proof.
  intros Hi Hcont Hpar.
  destruct Hinstalled as (Hbs & _ & _).
  rewrite call_method_wrapper.
  destruct (before_prefix fn_length fn_body this name (VFun t) bs Hbs
              original leading (VFun cb) eq_refl
              (take i bs) (drop i bs) 0 VNull original F)
    as (tr & error & in_ & Heq & He & Hst & Hcbs & Hsh); try done.
  { by rewrite take_drop. }
  rewrite length_take, Nat.min_l in Heq by done.
  by exists tr, error, in_.
Qed.

(** When the before-hook at index [i] is the first to report an error,
    the hooks up to it run and the error is delivered. *)
Lemma call_aborts_at (i : nat) (f : fnref) (e : value) (fuel : nat) :
  bs !! i = Some f →
  Forall (continues fn_body) (take i bs) →
  Forall (has_parameters fn_length) (take (S i) bs) →
  reports fn_body f e →
  2 * i + 4 ≤ fuel →
  ∃ tr,
    call_method fn_length fn_body this fuel name original = (tr, Returned)
    ∧ stages tr = imap SBefore (take (S i) bs)
    ∧ callbacks tr = [(VFun cb, [e])].
Proof.
  intros Hi Hcont Hpar [He Hf] Hfuel.
  pose (F := fuel - (2 * i + 4)).
  replace fuel with (S (2 * i + S (S (S F)))) by (unfold F; lia).
  rewrite (take_S_r _ _ _ Hi) in Hpar |- *.
  apply Forall_app in Hpar as [Hpar Hlen].
  apply Forall_inv in Hlen.
  destruct (call_reaches_before i (S (S (S F))))
    as (tr & error & in_ & Heq & Herr & Hst & Hcbs & _); try done.
  { apply lookup_lt_Some in Hi. lia. }
  destruct Hinstalled as (Hbs & _ & _).
  rewrite Heq.
  rewrite (runBeforeHook_hook fn_length this name (VFun t) bs Hbs _ _ _ f)
    by (done || exact Hlen).
  rewrite (replace_last_slot original leading (VFun cb) _ eq_refl).
  destruct (Hf (leading ++ [VBeforeNext name (VFun t) (i + 1)
                              original in_])) as [rest Hc].
  rewrite last_slot_snoc in Hc.
  rewrite (js_apply_once _ _ _ _ _ _ _ _ Hc).
  rewrite js_apply_before_next. unfold beforeNext.
  change (first_parameter (e :: rest)) with e.
  rewrite before_error_delivers by done.
  rewrite prepend_prepend, prepend_pair.
  eexists. split; [reflexivity|].
  rewrite !stages_app, !callbacks_app, Hst, Hcbs. simpl.
  rewrite imap_app. simpl. rewrite length_take, Nat.min_l, Nat.add_0_r.
  - by rewrite app_nil_r.
  - apply lookup_lt_Some in Hi. lia.
Qed.

(** The original function reports an error: no after-hook runs. *)
Lemma call_target_fails (e : value) (fuel : nat) :
  Forall (continues fn_body) bs →
  Forall (has_parameters fn_length) bs →
  fails fn_body (length original) t e →
  2 * length bs + 4 ≤ fuel →
  ∃ tr,
    call_method fn_length fn_body this fuel name original = (tr, Returned)
    ∧ stages tr = imap SBefore bs ++ [STarget]
    ∧ callbacks tr = [(VFun cb, [e])].
Proof.
  intros Hcont Hpar [He Ht] Hfuel.
  pose (F := fuel - (2 * length bs + 4)).
  replace fuel with (S (2 * length bs + S (S (S F)))) by (unfold F; lia).
  assert (calls_back_once fn_body (length original) t) as Ht'.
  { intros v. destruct (Ht v) as [rest Hc]. eauto. }
  destruct (call_reaches_after_chain (S F) Hcont Hpar Ht')
    as (tr & c & in' & Heq & Hc & Hst & Hcbs & _).
  destruct (Ht (array_set in' (Z.of_nat (length original) - 1)
                  (VOriginalCallback name (VFun t) original in')))
    as [rest Hc'].
  rewrite Hc in Hc'. simplify_eq.
  change (first_parameter (e :: rest)) with e in Heq.
  rewrite runAfterHook_error, deliver in Heq by done.
  rewrite Heq, prepend_pair. eexists. split; [reflexivity|].
  rewrite stages_app, callbacks_app, Hst, Hcbs. simpl.
  by rewrite app_nil_r.
Qed.

(** The before-hook the chain arrives at declares no parameter. *)
Lemma call_throws_before (i : nat) (f : fnref) (fuel : nat) :
  bs !! i = Some f →
  fn_length f = 0 →
  Forall (continues fn_body) (take i bs) →
  Forall (has_parameters fn_length) (take i bs) →
  2 * i + 1 ≤ fuel →
  ∃ tr,
    call_method fn_length fn_body this fuel name original
    = (tr, Threw (VError before_message))
    ∧ stages tr = imap SBefore (take i bs)
    ∧ callbacks tr = [].
Proof.
  intros Hi Hlen Hcont Hpar Hfuel.
  pose (F := fuel - (2 * i + 1)).
  replace fuel with (S (2 * i + F)) by (unfold F; lia).
  destruct (call_reaches_before i F)
    as (tr & error & in_ & Heq & Herr & Hst & Hcbs & _); try done.
  { apply lookup_lt_Some in Hi. lia. }
  destruct Hinstalled as (Hbs & _ & _).
  rewrite Heq.
  rewrite (runBeforeHook_no_parameters fn_length this name (VFun t) bs Hbs
             _ _ _ f) by done.
  exists tr. unfold prepend, throw. simpl. by rewrite app_nil_r.
Qed.

(** The after-hook the chain arrives at declares no parameter. *)
Lemma call_throws_after (j : nat) (f : fnref) (fuel : nat) :
  as_ !! j = Some f →
  fn_length f = 0 →
  Forall (continues fn_body) bs →
  Forall (has_parameters fn_length) bs →
  succeeds fn_body (length original) t →
  Forall (calls_next_once fn_body) (take j as_) →
  Forall (has_parameters fn_length) (take j as_) →
  2 * length bs + 2 * j + 3 ≤ fuel →
  ∃ tr,
    call_method fn_length fn_body this fuel name original
    = (tr, Threw (VError after_message))
    ∧ stages tr = imap SBefore bs ++ [STarget] ++ imap SAfter (take j as_)
    ∧ callbacks tr = [].
Proof.
  intros Hj Hlen Hcont Hpar Ht Hcont' Hpar' Hfuel.
  pose (F := fuel - (2 * length bs + 2 * j + 3)).
  replace fuel with (S (2 * length bs + S (S (2 * j + F))))
    by (unfold F; lia).
  assert (calls_back_once fn_body (length original) t) as Ht'.
  { intros v. destruct (Ht v) as (c & Hc & _). eauto. }
  destruct (call_reaches_after_chain (2 * j + F) Hcont Hpar Ht')
    as (tr & c & in' & Heq & Hc & Hst & Hcbs & _).
  assert (instanceof_Error (first_parameter c) = false) as Hok.
  { destruct (Ht (array_set in' (Z.of_nat (length original) - 1)
                    (VOriginalCallback name (VFun t) original in')))
      as (c' & Hc' & Hok).
    rewrite Hc in Hc'. by simplify_eq. }
  destruct Hinstalled as (_ & Has & _).
  assert (j < length as_) as Hlt by (by apply lookup_lt_Some in Hj).
  destruct (after_prefix fn_length fn_body this name (VFun t) as_ Has
              original (VFun cb) (take j as_) (drop j as_) 0
              (first_parameter c) (if 0 <? length c then c else in') F)
    as (tr' & vec' & Heq' & Hst' & Hcbs' & _); try done.
  { by rewrite take_drop. }
  rewrite length_take, Nat.min_l in Heq' by lia.
  rewrite Heq, Heq'.
  rewrite (runAfterHook_no_parameters fn_length this name (VFun t) as_ Has
             _ _ _ f) by done.
  eexists. unfold prepend, throw. simpl. split; [reflexivity|].
  rewrite app_nil_r, stages_app, callbacks_app, Hst, Hst', Hcbs, Hcbs'.
  by rewrite <- app_assoc.
Qed.
End Calls.

(** ** The scenario of the test suite *)

(** [document.save('foo', 0, callback)]: the hook before bumps [bar], the
    method bumps it again, the hook after passes the result on, and the
    callback receives [(null, 'bar', 2)]. *)
Example document_save_valid :
  (this ← register_all Document.setup Document.prototype;
   Some (call_method Document.fn_length Document.fn_body this 8 "save"
           [VStr "foo"; VNum 0; VFun Document.callback]))
  = Some
      ([EBefore 0 Document.validate
          [VStr "foo"; VNum 0;
           VBeforeNext "save" (VFun Document.save) 1
             [VStr "foo"; VNum 0; VFun Document.callback]
             [VStr "foo"; VNum 0; VFun Document.callback]];
        EOriginal (VFun Document.save)
          [VStr "foo"; VNum 1;
           VOriginalCallback "save" (VFun Document.save)
             [VStr "foo"; VNum 0; VFun Document.callback]
             [VStr "foo"; VNum 1]];
        EAfter 0 Document.createJob
          [VNull; VStr "bar"; VNum 2;
           VAfterNext "save" (VFun Document.save) VNull 1
             (VFun Document.callback) [VNull; VStr "bar"; VNum 2]];
        ECallback (VFun Document.callback) [VNull; VStr "bar"; VNum 2]],
       Returned).
Proof. vm_compute. reflexivity. Qed.

(** [document.save('baz', 0, callback)]: [validate] reports an error, the
    method and the hook after it do not run. *)
Example document_save_invalid :
  (this ← register_all Document.setup Document.prototype;
   Some (call_method Document.fn_length Document.fn_body this 8 "save"
           [VStr "baz"; VNum 0; VFun Document.callback]))
  = Some
      ([EBefore 0 Document.validate
          [VStr "baz"; VNum 0;
           VBeforeNext "save" (VFun Document.save) 1
             [VStr "baz"; VNum 0; VFun Document.callback]
             [VStr "baz"; VNum 0; VFun Document.callback]];
        ECallback (VFun Document.callback) [VError "Invalid"]],
       Returned).
Proof. vm_compute. reflexivity. Qed.

(** ** The claims *)

Ltac fixed_behaviour := intros ?; eexists; repeat split; reflexivity.
Ltac lab_installed := repeat split; reflexivity.
Ltac lab_hooks :=
  repeat constructor;
  first [ discriminate | fixed_behaviour | idtac ].

(** C4.  A call in which no hook reports an error and the callback of the
    target reports none executes the [m] before-hooks, then the target once,
    then the [n] after-hooks, each list in registration order, no hook
    skipped or repeated: the executions are the before-list with its
    indices, the target, the after-list with its indices.  The hooks are
    hook functions (at least one declared parameter, the continuation called
    once), the target fires its callback once, and the call passes the
    caller's callback last. *)
Theorem successful_call_runs_hooks_in_order
    (fn_length : fnref → nat) (fn_body : fnref → list value → list invocation)
    (this : host) (name : string) (t cb : fnref) (bs as_ : list fnref)
    (leading : list value) (fuel : nat) :
  installed this name t bs as_ →
  Forall (has_parameters fn_length) (bs ++ as_) →
  Forall (continues fn_body) (bs ++ as_) →
  succeeds fn_body (length (leading ++ [VFun cb])) t →
  returns_quietly fn_body cb →
  2 * length bs + 2 * length as_ + 4 ≤ fuel →
  ∃ tr d,
    call_method fn_length fn_body this fuel name (leading ++ [VFun cb])
    = (tr, Returned)
    ∧ stages tr = imap SBefore bs ++ [STarget] ++ imap SAfter as_
    ∧ callbacks tr = [(VFun cb, d)].
Proof.
  intros Hinst Hpar Hcont Ht Hcb Hfuel.
  apply Forall_app in Hpar as [Hpar Hpar'].
  apply Forall_app in Hcont as [Hcont Hcont'].
  destruct (call_succeeds fn_length fn_body this name t cb bs as_ leading
              Hinst Hcb fuel) as (tr & d & Heq & Hst & Hcbs & _); try done.
  - eapply Forall_impl; [exact Hcont'|].
    intros f Hf v. destruct (Hf v) as (c & Hc & _). eauto.
  - eauto.
Qed.

Lemma successful_call_runs_hooks_in_order_witness :
  ∃ tr d,
    call_method Lab.fn_length Lab.fn_body
      (Lab.hooked Lab.save [Lab.pass1; Lab.pass2] [Lab.pass3]) 12 "save"
      ([VStr "x"; VStr "y"] ++ [VFun Lab.callback])
    = (tr, Returned)
    ∧ stages tr
      = imap SBefore [Lab.pass1; Lab.pass2] ++ [STarget]
        ++ imap SAfter [Lab.pass3]
    ∧ callbacks tr = [(VFun Lab.callback, d)].
Proof.
  apply (successful_call_runs_hooks_in_order Lab.fn_length Lab.fn_body
           (Lab.hooked Lab.save [Lab.pass1; Lab.pass2] [Lab.pass3])
           "save" Lab.save Lab.callback).
  - lab_installed.
  - lab_hooks.
  - lab_hooks.
  - fixed_behaviour.
  - intros a. reflexivity.
  - simpl. lia.
Defined.

(** How often the caller is called back.  When every hook calls its
    continuation exactly once, the callback of the target fires exactly once
    and no hook declares zero parameters, the call returns and the caller's
    callback has been invoked exactly once.  This says nothing of what the
    callback is given. *)
Lemma caller_receives_one_callback
    (fn_length : fnref → nat) (fn_body : fnref → list value → list invocation)
    (this : host) (name : string) (t cb : fnref) (bs as_ : list fnref)
    (leading : list value) (fuel : nat) :
  installed this name t bs as_ →
  Forall (has_parameters fn_length) (bs ++ as_) →
  Forall (calls_next_once fn_body) (bs ++ as_) →
  calls_back_once fn_body (length (leading ++ [VFun cb])) t →
  returns_quietly fn_body cb →
  2 * length bs + 2 * length as_ + 4 ≤ fuel →
  ∃ tr d,
    call_method fn_length fn_body this fuel name (leading ++ [VFun cb])
    = (tr, Returned)
    ∧ callbacks tr = [(VFun cb, d)].
Proof.
  intros Hinst Hpar Honce Ht Hcb Hfuel.
  apply Forall_app in Hpar as [Hpar Hpar'].
  apply Forall_app in Honce as [Honce Honce'].
  pose (F := fuel - (2 * length bs + 2 * length as_ + 4)).
  replace fuel with (S (2 * length bs + S (S (2 * length as_ + S F))))
    by (unfold F; lia).
  rewrite (call_method_wrapper fn_length fn_body this name t cb bs as_
             leading Hinst).
  destruct (before_any fn_length fn_body this name t cb bs as_ leading
              Hinst Hcb bs 0 VNull (leading ++ [VFun cb]) F)
    as (tr & d & Heq & Hcbs & _); try done.
  eauto.
Qed.

Lemma caller_receives_one_callback_witness :
  ∃ tr d,
    call_method Lab.fn_length Lab.fn_body
      (Lab.hooked Lab.save_error [Lab.pass1; Lab.override] [Lab.failing])
      12 "save" ([VStr "x"; VStr "y"] ++ [VFun Lab.callback])
    = (tr, Returned)
    ∧ callbacks tr = [(VFun Lab.callback, d)].
Proof.
  apply (caller_receives_one_callback Lab.fn_length Lab.fn_body
           (Lab.hooked Lab.save_error [Lab.pass1; Lab.override] [Lab.failing])
           "save" Lab.save_error Lab.callback
           [Lab.pass1; Lab.override] [Lab.failing]).
  - lab_installed.
  - lab_hooks.
  - lab_hooks.
  - fixed_behaviour.
  - intros a. reflexivity.
  - simpl. lia.
Defined.


(** C5.  When the before-hook at index [i] reports an error through its
    continuation (the hooks ahead of it having continued), the executions
    of the call are the before-hooks at indices [0..i] and nothing else: no
    before-hook of a greater index, not the target, no after-hook; the
    caller's callback is invoked exactly once, with that error alone. *)
Theorem before_hook_error_aborts
    (fn_length : fnref → nat) (fn_body : fnref → list value → list invocation)
    (this : host) (name : string) (t cb : fnref) (bs as_ : list fnref)
    (leading : list value) (i : nat) (f : fnref) (e : value) (fuel : nat) :
  installed this name t bs as_ →
  bs !! i = Some f →
  Forall (has_parameters fn_length) (take (S i) bs) →
  Forall (continues fn_body) (take i bs) →
  reports fn_body f e →
  returns_quietly fn_body cb →
  2 * i + 4 ≤ fuel →
  ∃ tr,
    call_method fn_length fn_body this fuel name (leading ++ [VFun cb])
    = (tr, Returned)
    ∧ stages tr = imap SBefore (take (S i) bs)
    ∧ callbacks tr = [(VFun cb, [e])].
Proof.
  intros Hinst Hi Hpar Hcont Hf Hcb Hfuel.
  by apply (call_aborts_at fn_length fn_body this name t cb bs as_ leading
              Hinst Hcb i f e fuel).
Qed.

Lemma before_hook_error_aborts_witness :
  ∃ tr,
    call_method Lab.fn_length Lab.fn_body
      (Lab.hooked Lab.save [Lab.pass1; Lab.failing; Lab.pass2] [Lab.pass3])
      6 "save" ([VStr "x"; VStr "y"] ++ [VFun Lab.callback])
    = (tr, Returned)
    ∧ stages tr = imap SBefore (take 2 [Lab.pass1; Lab.failing; Lab.pass2])
    ∧ callbacks tr = [(VFun Lab.callback, [VError "boom"])].
Proof.
  apply (before_hook_error_aborts Lab.fn_length Lab.fn_body
           (Lab.hooked Lab.save [Lab.pass1; Lab.failing; Lab.pass2] [Lab.pass3])
           "save" Lab.save Lab.callback
           [Lab.pass1; Lab.failing; Lab.pass2] [Lab.pass3]
           [VStr "x"; VStr "y"] 1 Lab.failing (VError "boom")).
  - lab_installed.
  - reflexivity.
  - lab_hooks.
  - lab_hooks.
  - split; [reflexivity | fixed_behaviour].
  - intros a. reflexivity.
  - simpl. lia.
Defined.

(** C1 (the code departs from the claim).  [Lab.failing], registered as the
    after-hook at index 0, calls its continuation with [new Error('boom')].
    The continuation hands [runAfterHook] the [error] it closed over, not
    [afterHookError]: the after-hook at index 1 still executes, and the
    caller's callback is invoked with no argument at all instead of the
    error. *)
Theorem after_hook_error_is_dropped :
  register_all [After "save" Lab.failing; After "save" Lab.pass1]
    (fresh {[ "save" := VFun Lab.save ]})
  = Some (Lab.hooked Lab.save [] [Lab.failing; Lab.pass1])
  ∧ reports Lab.fn_body Lab.failing (VError "boom")
  ∧ ∃ tr,
      call_method Lab.fn_length Lab.fn_body
        (Lab.hooked Lab.save [] [Lab.failing; Lab.pass1]) 12 "save" Lab.call
      = (tr, Returned)
      ∧ stages tr = [STarget; SAfter 0 Lab.failing; SAfter 1 Lab.pass1]
      ∧ callbacks tr = [(VFun Lab.callback, [])].
Proof.
  split; [vm_compute; reflexivity|].
  split; [split; [reflexivity | fixed_behaviour]|].
  eexists. split; [vm_compute; reflexivity|]. split; reflexivity.
Qed.

(** The continuation of an after-hook never looks at the error it is
    called with: whatever the hook passes first, the chain goes on with the
    [error] the closure captured. *)
Lemma afterNext_ignores_afterHookError
    (fn_length : fnref → nat) (this : host) (app : value → list value → run)
    (functionName : string) (originalFunction error cb : value) (next : nat)
    (vec rest : list value) (e : value) :
  is_nullish e = false →
  afterNext fn_length this app functionName originalFunction error next cb vec
    (e :: rest)
  = runAfterHook fn_length this app functionName originalFunction error next
      cb rest.
Proof.
  intros He. unfold afterNext, passes_arguments.
  change (first_parameter (e :: rest)) with e. rewrite He. reflexivity.
Qed.

(** C3 as stated fails: a target that calls back with the truthy string
    ['failed'] does not stop the after-hooks. *)
Lemma truthy_target_result_runs_after_hooks :
  register_all [After "save" Lab.pass1]
    (fresh {[ "save" := VFun Lab.save_string ]})
  = Some (Lab.hooked Lab.save_string [] [Lab.pass1])
  ∧ truthy (VStr "failed") = true
  ∧ (∀ v, Lab.fn_body Lab.save_string v = [(array_get v 2, [VStr "failed"])])
  ∧ stages
      (call_method Lab.fn_length Lab.fn_body
         (Lab.hooked Lab.save_string [] [Lab.pass1]) 12 "save" Lab.call).1
    = [STarget; SAfter 0 Lab.pass1].
Proof. split; [vm_compute; reflexivity|]. repeat split. Qed.

(** C3, amended.  When the target invokes its callback with an [Error]
    instance first (the before-hooks having continued), no after-hook
    executes and the caller's callback is invoked exactly once, with that
    error alone. *)
Theorem target_error_skips_after_hooks
    (fn_length : fnref → nat) (fn_body : fnref → list value → list invocation)
    (this : host) (name : string) (t cb : fnref) (bs as_ : list fnref)
    (leading : list value) (e : value) (fuel : nat) :
  installed this name t bs as_ →
  Forall (has_parameters fn_length) bs →
  Forall (continues fn_body) bs →
  fails fn_body (length (leading ++ [VFun cb])) t e →
  returns_quietly fn_body cb →
  2 * length bs + 4 ≤ fuel →
  ∃ tr,
    call_method fn_length fn_body this fuel name (leading ++ [VFun cb])
    = (tr, Returned)
    ∧ stages tr = imap SBefore bs ++ [STarget]
    ∧ callbacks tr = [(VFun cb, [e])].
Proof.
  intros Hinst Hpar Hcont Ht Hcb Hfuel.
  by apply (call_target_fails fn_length fn_body this name t cb bs as_ leading
              Hinst Hcb e fuel).
Qed.

Lemma target_error_skips_after_hooks_witness :
  ∃ tr,
    call_method Lab.fn_length Lab.fn_body
      (Lab.hooked Lab.save_error [Lab.pass1] [Lab.pass2; Lab.pass3])
      6 "save" ([VStr "x"; VStr "y"] ++ [VFun Lab.callback])
    = (tr, Returned)
    ∧ stages tr = imap SBefore [Lab.pass1] ++ [STarget]
    ∧ callbacks tr = [(VFun Lab.callback, [VError "bad"])].
Proof.
  apply (target_error_skips_after_hooks Lab.fn_length Lab.fn_body
           (Lab.hooked Lab.save_error [Lab.pass1] [Lab.pass2; Lab.pass3])
           "save" Lab.save_error Lab.callback
           [Lab.pass1] [Lab.pass2; Lab.pass3] [VStr "x"; VStr "y"]
           (VError "bad")).
  - lab_installed.
  - lab_hooks.
  - lab_hooks.
  - split; [reflexivity | fixed_behaviour].
  - intros a. reflexivity.
  - simpl. lia.
Defined.

(** C2 as stated fails: [Lab.override], the before-hook at index 0, calls
    its continuation with [(null, 'a', 'b')]; the next before-hook is still
    applied to the arguments ['x', 'y'] of the call.  That hook then calls
    its continuation with no arguments, and the target receives ['a', 'b'],
    not the ['x', 'y'] the hook itself received. *)
Lemma next_before_hook_gets_call_arguments :
  register_all [Before "save" Lab.override; Before "save" Lab.pass1]
    (fresh {[ "save" := VFun Lab.save ]})
  = Some (Lab.hooked Lab.save [Lab.override; Lab.pass1] [])
  ∧ (∀ v, Lab.fn_body Lab.override v = [(last_slot v, [VNull; VStr "a"; VStr "b"])])
  ∧ (∀ v, Lab.fn_body Lab.pass1 v = [(last_slot v, [])])
  ∧ ∃ tr,
      call_method Lab.fn_length Lab.fn_body
        (Lab.hooked Lab.save [Lab.override; Lab.pass1] []) 12 "save"
        [VStr "x"; VStr "y"; VFun Lab.callback]
      = (tr, Returned)
      ∧ tr !! 1
        = Some (EBefore 1 Lab.pass1
                  [VStr "x"; VStr "y";
                   VBeforeNext "save" (VFun Lab.save) 2
                     [VStr "x"; VStr "y"; VFun Lab.callback]
                     [VStr "a"; VStr "b"]])
      ∧ tr !! 2
        = Some (EOriginal (VFun Lab.save)
                  [VStr "a"; VStr "b";
                   VOriginalCallback "save" (VFun Lab.save)
                     [VStr "x"; VStr "y"; VFun Lab.callback]
                     [VStr "a"; VStr "b"]]).
Proof.
  split; [vm_compute; reflexivity|]. split; [done|]. split; [done|].
  eexists. split; [vm_compute; reflexivity|]. split; reflexivity.
Qed.

(** C2, amended.  What the stage after a before-hook is applied to, read
    off the first event of the run of the hook's continuation:
    - a next before-hook is applied to the leading arguments of the
      original call and a continuation, whatever the hook passed (the
      values passed travel inside the continuation);
    - when no before-hook remains and the hook passed [null] and as many
      values as the call has leading arguments, the target is applied to
      exactly those values and its callback;
    - when no before-hook remains and the hook passed nothing, the target
      is applied to the array the continuation carries (the values last
      passed, the arguments of the call when none were) with the callback
      written into the slot of the call's callback. *)
Theorem continuation_of_before_hook
    (fn_length : fnref → nat) (fn_body : fnref → list value → list invocation)
    (this : host) (name : string) (originalFunction : value) (bs : list fnref)
    (leading : list value) (receiver : value) (i F : nat) (in_ : list value) :
  _getBeforeHooks this name = Some bs →
  is_function originalFunction = true →
  let original := leading ++ [receiver] in
  let next := VBeforeNext name originalFunction (i + 1) original in_ in
  (∀ f c,
     bs !! (i + 1) = Some f →
     fn_length f ≠ 0 →
     instanceof_Error (first_parameter c) = false →
     first_event (js_apply fn_length fn_body this (S F) next c)
     = Some (EBefore (i + 1) f
               (leading ++
                [VBeforeNext name originalFunction (i + 1 + 1) original
                   (if passes_arguments c then shifted c else in_)])))
  ∧ (∀ a rest,
       length bs ≤ i + 1 →
       length (a :: rest) = length leading →
       first_event (js_apply fn_length fn_body this (S F) next (VNull :: a :: rest))
       = Some (EOriginal originalFunction
                 ((a :: rest) ++
                  [VOriginalCallback name originalFunction original (a :: rest)])))
  ∧ (length bs ≤ i + 1 →
     first_event (js_apply fn_length fn_body this (S F) next [])
     = Some (EOriginal originalFunction
               (array_set in_ (Z.of_nat (length original) - 1)
                  (VOriginalCallback name originalFunction original in_)))).
Proof.
  intros Hbs Hfun original next. subst next.
  split; [|split].
  - intros f c Hf Hlen Hc.
    rewrite js_apply_before_next. unfold beforeNext.
    rewrite (runBeforeHook_hook fn_length this name originalFunction bs Hbs
               _ _ _ f) by done.
    by rewrite (replace_last_slot original leading receiver _ eq_refl).
  - intros a rest Hi Hlen.
    rewrite js_apply_before_next. unfold beforeNext.
    rewrite (runBeforeHook_end fn_length this name originalFunction bs Hbs)
      by done.
    change (passes_arguments (VNull :: a :: rest)) with true.
    change (shifted (VNull :: a :: rest)) with (a :: rest).
    unfold runOriginalFunction. rewrite Hfun.
    rewrite (array_set_append (a :: rest) (length original)).
    + reflexivity.
    + unfold original. rewrite length_app. simpl in *. lia.
  - intros Hi.
    rewrite js_apply_before_next. unfold beforeNext.
    rewrite (runBeforeHook_end fn_length this name originalFunction bs Hbs)
      by done.
    change (passes_arguments []) with false.
    unfold runOriginalFunction. by rewrite Hfun.
Qed.

Lemma continuation_of_before_hook_witness :
  first_event
    (js_apply Lab.fn_length Lab.fn_body
       (Lab.hooked Lab.save [Lab.override; Lab.pass1] []) 1
       (VBeforeNext "save" (VFun Lab.save) (0 + 1)
          ([VStr "x"; VStr "y"] ++ [VFun Lab.callback]) Lab.call)
       [VNull; VStr "a"; VStr "b"])
  = Some (EBefore 1 Lab.pass1
            [VStr "x"; VStr "y";
             VBeforeNext "save" (VFun Lab.save) 2 Lab.call [VStr "a"; VStr "b"]])
  ∧ first_event
      (js_apply Lab.fn_length Lab.fn_body
         (Lab.hooked Lab.save [Lab.override; Lab.pass1] []) 1
         (VBeforeNext "save" (VFun Lab.save) (1 + 1)
            ([VStr "x"; VStr "y"] ++ [VFun Lab.callback]) Lab.call)
         [VNull; VStr "a"; VStr "b"])
    = Some (EOriginal (VFun Lab.save)
              [VStr "a"; VStr "b";
               VOriginalCallback "save" (VFun Lab.save) Lab.call
                 [VStr "a"; VStr "b"]]).
Proof.
  split.
  - apply (continuation_of_before_hook Lab.fn_length Lab.fn_body
             (Lab.hooked Lab.save [Lab.override; Lab.pass1] []) "save"
             (VFun Lab.save) [Lab.override; Lab.pass1] [VStr "x"; VStr "y"]
             (VFun Lab.callback) 0 0 Lab.call eq_refl eq_refl);
      [reflexivity | discriminate | reflexivity].
  - apply (continuation_of_before_hook Lab.fn_length Lab.fn_body
             (Lab.hooked Lab.save [Lab.override; Lab.pass1] []) "save"
             (VFun Lab.save) [Lab.override; Lab.pass1] [VStr "x"; VStr "y"]
             (VFun Lab.callback) 1 0 Lab.call eq_refl eq_refl);
      [simpl; lia | reflexivity].
Defined.

(** ** Removal *)

Lemma remove_hooks_function (fn : fnref) (hooks : list fnref) :
  remove_hooks [VFun fn] hooks = filter (λ g, g ≠ fn) hooks.
Proof.
  unfold remove_hooks. apply list_filter_iff. intros g. simpl.
  by rewrite negb_true_iff, bool_decide_eq_false.
Qed.

Lemma remove_from_lookup (table : gmap string (list fnref)) (name : string)
    (rest : list value) (hooks : list fnref) :
  table !! name = Some hooks →
  ∃ table',
    remove_from (Some table) name rest = Some table'
    ∧ table' !! name = Some (remove_hooks rest hooks)
    ∧ ∀ other, other ≠ name → table' !! other = table !! other.
Proof.
  intros Hl. unfold remove_from. simpl. rewrite Hl. simpl.
  eexists. split; [reflexivity|]. split.
  - apply lookup_insert_eq.
  - intros other Hne. by apply lookup_insert_ne.
Qed.

(** C6 as stated fails: a function registered twice is removed twice. *)
Lemma removeBefore_removes_every_occurrence :
  (register_all
     [Before "save" Lab.pass1; Before "save" Lab.pass2;
      Before "save" Lab.pass1; RemoveBefore "save" [VFun Lab.pass1]]
     (fresh {[ "save" := VFun Lab.save ]})
   ≫= λ this, _getBeforeHooks this "save")
  = Some [Lab.pass2]
  ∧ length [Lab.pass2] ≠ length [Lab.pass1; Lab.pass2; Lab.pass1] - 1.
Proof. split; [reflexivity | discriminate]. Qed.

(** C6, amended.  When the before-list of [name] has been initialised,
    [removeBefore(name, fn)] removes every occurrence of [fn] (matched by
    identity) from it and keeps every other entry, in order;
    [removeBefore(name)] empties it.  Either way the lists of the other
    names, the after-table and the methods are untouched.  The same holds
    for [removeAfter] over the after-list. *)
Theorem removal_contract (this : host) (name : string) (fn : fnref) :
  (∀ bs, _getBeforeHooks this name = Some bs →
     ∀ rest kept,
       (rest = [VFun fn] ∧ kept = filter (λ g, g ≠ fn) bs)
       ∨ (rest = [] ∧ kept = []) →
       ∃ this',
         removeBefore name rest this = Some this'
         ∧ _getBeforeHooks this' name = Some kept
         ∧ (∀ other, other ≠ name →
              _getBeforeHooks this' other = _getBeforeHooks this other)
         ∧ _after this' = _after this
         ∧ methods this' = methods this)
  ∧ (∀ as_, _getAfterHooks this name = Some as_ →
       ∀ rest kept,
         (rest = [VFun fn] ∧ kept = filter (λ g, g ≠ fn) as_)
         ∨ (rest = [] ∧ kept = []) →
         ∃ this',
           removeAfter name rest this = Some this'
           ∧ _getAfterHooks this' name = Some kept
           ∧ (∀ other, other ≠ name →
                _getAfterHooks this' other = _getAfterHooks this other)
           ∧ _before this' = _before this
           ∧ methods this' = methods this).
Proof.
  split.
  - intros bs Hbs rest kept Hrest.
    unfold _getBeforeHooks in Hbs.
    destruct (_before this) as [table|] eqn:Htable; [|done]. simpl in Hbs.
    destruct (remove_from_lookup table name rest bs Hbs)
      as (table' & Hrm & Hname & Hother).
    unfold removeBefore. rewrite Htable, Hrm. simpl.
    eexists. split; [reflexivity|]. unfold _getBeforeHooks. simpl.
    rewrite Htable. simpl. repeat split; try done.
    rewrite Hname. f_equal.
    destruct Hrest as [[-> ->]|[-> ->]]; [apply remove_hooks_function|done].
  - intros as_ Has rest kept Hrest.
    unfold _getAfterHooks in Has.
    destruct (_after this) as [table|] eqn:Htable; [|done]. simpl in Has.
    destruct (remove_from_lookup table name rest as_ Has)
      as (table' & Hrm & Hname & Hother).
    unfold removeAfter. rewrite Htable, Hrm. simpl.
    eexists. split; [reflexivity|]. unfold _getAfterHooks. simpl.
    rewrite Htable. simpl. repeat split; try done.
    rewrite Hname. f_equal.
    destruct Hrest as [[-> ->]|[-> ->]]; [apply remove_hooks_function|done].
Qed.

Lemma removal_contract_witness :
  ∃ this',
    removeBefore "save" [VFun Lab.pass1]
      (Lab.hooked Lab.save [Lab.pass1; Lab.pass2; Lab.pass1] [Lab.pass3])
    = Some this'
    ∧ _getBeforeHooks this' "save" = Some [Lab.pass2]
    ∧ (∀ other, other ≠ "save" →
         _getBeforeHooks this' other
         = _getBeforeHooks
             (Lab.hooked Lab.save [Lab.pass1; Lab.pass2; Lab.pass1] [Lab.pass3])
             other)
    ∧ _after this'
      = _after (Lab.hooked Lab.save [Lab.pass1; Lab.pass2; Lab.pass1] [Lab.pass3])
    ∧ methods this'
      = methods (Lab.hooked Lab.save [Lab.pass1; Lab.pass2; Lab.pass1] [Lab.pass3]).
Proof.
  apply (proj1 (removal_contract
                  (Lab.hooked Lab.save [Lab.pass1; Lab.pass2; Lab.pass1]
                     [Lab.pass3]) "save" Lab.pass1)
           [Lab.pass1; Lab.pass2; Lab.pass1] eq_refl).
  left. split; reflexivity.
Defined.

(** C8.  A before-hook at index [i] is applied to a copy of the argument
    array of the call with its last slot replaced by a continuation made
    for that application (it carries [i + 1]), whatever array the chain
    carries at that point; an after-hook is applied to a copy of the
    current result array with a continuation pushed behind all of its
    values.  This holds at the one place each kind of hook is applied,
    and hence for every hook application of a call whose hooks call their
    continuation once. *)
Theorem hooks_are_applied_to
    (fn_length : fnref → nat) (fn_body : fnref → list value → list invocation)
    (this : host) (name : string) (t cb : fnref) (bs as_ : list fnref)
    (leading : list value) :
  installed this name t bs as_ →
  (∀ app error i f in_,
     instanceof_Error error = false →
     bs !! i = Some f →
     fn_length f ≠ 0 →
     runBeforeHook fn_length this app name (VFun t) error i
       (leading ++ [VFun cb]) in_
     = prepend
         [EBefore i f
            (leading ++
             [VBeforeNext name (VFun t) (i + 1) (leading ++ [VFun cb]) in_])]
         (app (VFun f)
            (leading ++
             [VBeforeNext name (VFun t) (i + 1) (leading ++ [VFun cb]) in_])))
  ∧ (∀ app error j f receiver result,
       instanceof_Error error = false →
       as_ !! j = Some f →
       fn_length f ≠ 0 →
       runAfterHook fn_length this app name (VFun t) error j receiver result
       = prepend
           [EAfter j f
              (result ++ [VAfterNext name (VFun t) error (j + 1) receiver result])]
           (app (VFun f)
              (result ++ [VAfterNext name (VFun t) error (j + 1) receiver result])))
  ∧ (∀ fuel,
       Forall (has_parameters fn_length) (bs ++ as_) →
       Forall (calls_next_once fn_body) (bs ++ as_) →
       calls_back_once fn_body (length (leading ++ [VFun cb])) t →
       returns_quietly fn_body cb →
       2 * length bs + 2 * length as_ + 4 ≤ fuel →
       Forall (hook_arguments_shape name (VFun t) (leading ++ [VFun cb]))
         (call_method fn_length fn_body this fuel name (leading ++ [VFun cb])).1).
Proof.
  intros Hinst. pose proof Hinst as (Hbs & Has & _).
  split; [|split].
  - intros app error i f in_ He Hi Hlen.
    rewrite (runBeforeHook_hook fn_length this name (VFun t) bs Hbs _ _ _ f)
      by done.
    by rewrite (replace_last_slot _ leading (VFun cb) _ eq_refl).
  - intros app error j f receiver result He Hj Hlen.
    by rewrite (runAfterHook_hook fn_length this name (VFun t) as_ Has _ _ _ f).
  - intros fuel Hpar Honce Ht Hcb Hfuel.
    apply Forall_app in Hpar as [Hpar Hpar'].
    apply Forall_app in Honce as [Honce Honce'].
    pose (F := fuel - (2 * length bs + 2 * length as_ + 4)).
    replace fuel with (S (2 * length bs + S (S (2 * length as_ + S F))))
      by (unfold F; lia).
    rewrite (call_method_wrapper fn_length fn_body this name t cb bs as_
               leading Hinst).
    destruct (before_any fn_length fn_body this name t cb bs as_ leading
                Hinst Hcb bs 0 VNull (leading ++ [VFun cb]) F)
      as (tr & d & Heq & _ & Hsh); try done.
    by rewrite Heq.
Qed.

Lemma hooks_are_applied_to_witness :
  Forall (hook_arguments_shape "save" (VFun Lab.save)
            ([VStr "x"; VStr "y"] ++ [VFun Lab.callback]))
    (call_method Lab.fn_length Lab.fn_body
       (Lab.hooked Lab.save [Lab.override; Lab.pass1] [Lab.failing; Lab.pass2])
       14 "save" ([VStr "x"; VStr "y"] ++ [VFun Lab.callback])).1.
Proof.
  apply (hooks_are_applied_to Lab.fn_length Lab.fn_body
           (Lab.hooked Lab.save [Lab.override; Lab.pass1]
              [Lab.failing; Lab.pass2])
           "save" Lab.save Lab.callback
           [Lab.override; Lab.pass1] [Lab.failing; Lab.pass2]
           [VStr "x"; VStr "y"]).
  - lab_installed.
  - lab_hooks.
  - lab_hooks.
  - fixed_behaviour.
  - intros a. reflexivity.
  - simpl. lia.
Defined.

(** C10.  When the hook the chain arrives at declares zero parameters,
    [runBeforeHook] (resp. [runAfterHook]) throws at that point: the hook is
    not applied and nothing is delivered.  No frame of the engine handles
    the exception: the call as a whole ends by throwing it, and the caller's
    callback has not been invoked. *)
Theorem hook_without_parameters_throws
    (fn_length : fnref → nat) (fn_body : fnref → list value → list invocation)
    (this : host) (name : string) (t cb : fnref) (bs as_ : list fnref)
    (leading : list value) :
  installed this name t bs as_ →
  returns_quietly fn_body cb →
  (∀ app error i f original in_,
     instanceof_Error error = false →
     bs !! i = Some f →
     fn_length f = 0 →
     runBeforeHook fn_length this app name (VFun t) error i original in_
     = throw (VError before_message))
  ∧ (∀ app error j f receiver result,
       instanceof_Error error = false →
       as_ !! j = Some f →
       fn_length f = 0 →
       runAfterHook fn_length this app name (VFun t) error j receiver result
       = throw (VError after_message))
  ∧ (∀ i f fuel,
       bs !! i = Some f →
       fn_length f = 0 →
       Forall (continues fn_body) (take i bs) →
       Forall (has_parameters fn_length) (take i bs) →
       2 * i + 1 ≤ fuel →
       ∃ tr,
         call_method fn_length fn_body this fuel name (leading ++ [VFun cb])
         = (tr, Threw (VError before_message))
         ∧ stages tr = imap SBefore (take i bs)
         ∧ callbacks tr = [])
  ∧ (∀ j f fuel,
       as_ !! j = Some f →
       fn_length f = 0 →
       Forall (continues fn_body) bs →
       Forall (has_parameters fn_length) bs →
       succeeds fn_body (length (leading ++ [VFun cb])) t →
       Forall (calls_next_once fn_body) (take j as_) →
       Forall (has_parameters fn_length) (take j as_) →
       2 * length bs + 2 * j + 3 ≤ fuel →
       ∃ tr,
         call_method fn_length fn_body this fuel name (leading ++ [VFun cb])
         = (tr, Threw (VError after_message))
         ∧ stages tr
           = imap SBefore bs ++ [STarget] ++ imap SAfter (take j as_)
         ∧ callbacks tr = []).
Proof.
  intros Hinst Hcb. pose proof Hinst as (Hbs & Has & _).
  split; [|split; [|split]].
  - intros app error i f original in_ He Hi Hlen.
    by apply (runBeforeHook_no_parameters fn_length this name (VFun t) bs Hbs
                app error i f).
  - intros app error j f receiver result He Hj Hlen.
    by apply (runAfterHook_no_parameters fn_length this name (VFun t) as_ Has
                app error j f).
  - intros i f fuel Hi Hlen Hcont Hpar Hfuel.
    by apply (call_throws_before fn_length fn_body this name t cb bs as_
                leading Hinst i f fuel).
  - intros j f fuel Hj Hlen Hcont Hpar Ht Hcont' Hpar' Hfuel.
    by apply (call_throws_after fn_length fn_body this name t cb bs as_
                leading Hinst j f fuel).
Qed.

Lemma hook_without_parameters_throws_witness :
  ∃ tr,
    call_method Lab.fn_length Lab.fn_body
      (Lab.hooked Lab.save [Lab.pass1] [Lab.pass2; Lab.no_parameters])
      8 "save" ([VStr "x"; VStr "y"] ++ [VFun Lab.callback])
    = (tr, Threw (VError after_message))
    ∧ stages tr
      = imap SBefore [Lab.pass1] ++ [STarget]
        ++ imap SAfter (take 1 [Lab.pass2; Lab.no_parameters])
    ∧ callbacks tr = [].
Proof.
  apply (hook_without_parameters_throws Lab.fn_length Lab.fn_body
           (Lab.hooked Lab.save [Lab.pass1] [Lab.pass2; Lab.no_parameters])
           "save" Lab.save Lab.callback
           [Lab.pass1] [Lab.pass2; Lab.no_parameters] [VStr "x"; VStr "y"]
           ltac:(lab_installed) ltac:(intros a; reflexivity))
    with (f := Lab.no_parameters).
  - reflexivity.
  - reflexivity.
  - lab_hooks.
  - lab_hooks.
  - fixed_behaviour.
  - lab_hooks.
  - lab_hooks.
  - simpl. lia.
Defined.

(** ** Registration keeps one wrapper per name *)

Lemma _isHookedAlready_spec (this : host) (name : string) :
  _isHookedAlready this name = bool_decide (is_Some (_getBeforeHooks this name)).
Proof.
  unfold _isHookedAlready, _getBeforeHooks.
  by destruct (_before this) as [table|].
Qed.

Lemma invariant_fresh (ms : gmap string value) :
  registration_invariant ms (fresh ms).
Proof. intros name. reflexivity. Qed.

(** Replacing the list of a name that has one keeps the invariant. *)
Lemma invariant_update_before ms this table name hooks :
  registration_invariant ms this →
  _before this = Some table →
  is_Some (table !! name) →
  registration_invariant ms
    {| _before := Some (<[name := hooks]> table);
       _after := _after this; methods := methods this |}.
Proof.
  intros Hinv Htable Hname other. specialize (Hinv other).
  unfold _getBeforeHooks, _getAfterHooks in *. rewrite Htable in Hinv.
  simpl in *. destruct (decide (name = other)) as [->|Hne].
  - rewrite lookup_insert_eq. destruct Hname as [old Hold].
    by rewrite Hold in Hinv.
  - by rewrite lookup_insert_ne.
Qed.

Lemma invariant_update_after ms this table name hooks :
  registration_invariant ms this →
  _after this = Some table →
  registration_invariant ms
    {| _before := _before this;
       _after := Some (<[name := hooks]> table); methods := methods this |}.
Proof.
  intros Hinv Htable other. specialize (Hinv other).
  unfold _getBeforeHooks, _getAfterHooks in *. rewrite Htable in Hinv.
  simpl in *. destruct (_before this ≫= (.!! other)); [|done].
  destruct Hinv as [Hafter Hm]. split; [|done].
  destruct (decide (name = other)) as [->|Hne].
  - rewrite lookup_insert_eq. eauto.
  - by rewrite lookup_insert_ne.
Qed.

Lemma invariant_hook ms this name :
  registration_invariant ms this →
  registration_invariant ms (_hook name this)
  ∧ is_Some (_getBeforeHooks (_hook name this) name).
Proof.
  intros Hinv. unfold _hook. rewrite _isHookedAlready_spec.
  case_bool_decide as Hhooked; [done|].
  assert (_getBeforeHooks this name = None) as Hnone.
  { by apply eq_None_not_Some. }
  split.
  - intros other. pose proof (Hinv other) as Hother.
    unfold _getBeforeHooks, _getAfterHooks, get_method, _setupHooks in *.
    simpl. destruct (decide (name = other)) as [->|Hne].
    + rewrite !lookup_insert_eq. rewrite Hnone in Hother.
      split; [eauto|]. by rewrite Hother.
    + rewrite !lookup_insert_ne by done.
      destruct (_before this) as [bt|], (_after this) as [at_|]; simpl in *;
        rewrite ?lookup_empty; try done.
  - unfold _getBeforeHooks, _setupHooks. simpl.
    rewrite lookup_insert_eq. eauto.
Qed.

Lemma invariant_register ms op this this' :
  registration_invariant ms this →
  register op this = Some this' →
  registration_invariant ms this'.
Proof.
  intros Hinv Hop. destruct op as [name fn|name fn|name rest|name rest];
    simpl in Hop.
  - destruct (invariant_hook ms this name Hinv) as [Hinv' [hooks Hhooks]].
    unfold before, push_hook in Hop. unfold _getBeforeHooks in Hhooks.
    destruct (_before (_hook name this)) as [table|] eqn:Htable; [|done].
    simpl in *. rewrite Hhooks in Hop. simpl in Hop. simplify_eq.
    apply invariant_update_before; eauto.
  - destruct (invariant_hook ms this name Hinv) as [Hinv' _].
    unfold after, push_hook in Hop.
    destruct (_after (_hook name this)) as [table|] eqn:Htable; [|done].
    simpl in *. destruct (table !! name); [|done]. simpl in Hop. simplify_eq.
    by apply invariant_update_after.
  - unfold removeBefore, remove_from in Hop.
    destruct (_before this) as [table|] eqn:Htable; [|done].
    simpl in *. destruct (table !! name) eqn:Hname; [|done].
    simpl in Hop. simplify_eq.
    apply invariant_update_before; eauto.
  - unfold removeAfter, remove_from in Hop.
    destruct (_after this) as [table|] eqn:Htable; [|done].
    simpl in *. destruct (table !! name); [|done]. simpl in Hop. simplify_eq.
    by apply invariant_update_after.
Qed.

Lemma invariant_register_all ms ops :
  ∀ this this',
    registration_invariant ms this →
    register_all ops this = Some this' →
    registration_invariant ms this'.
Proof.
  induction ops as [|op ops IH]; intros this this' Hinv Hops; simpl in Hops.
  - by simplify_eq.
  - destruct (register op this) as [this1|] eqn:Hop; [|done]. simpl in Hops.
    eapply IH; [|done]. by eapply invariant_register.
Qed.

Lemma no_target_among_hooks (g : nat → fnref → stage) (hooks : list fnref) :
  (∀ k f, g k f ≠ STarget) →
  filter (λ s, s = STarget) (imap g hooks) = [].
Proof.
  revert g. induction hooks as [|f hooks IH]; intros g Hg; [done|].
  simpl. rewrite filter_cons_False by apply Hg.
  apply IH. intros k f'. apply Hg.
Qed.





(** * Further properties of the mixin *)

(** ** Setting up and registering *)

Lemma getBeforeHooks_table (this : host) (table : gmap string (list fnref))
    (name : string) :
  _before this = Some table → _getBeforeHooks this name = table !! name.
Proof. intros H. unfold _getBeforeHooks. by rewrite H. Qed.

Lemma getAfterHooks_table (this : host) (table : gmap string (list fnref))
    (name : string) :
  _after this = Some table → _getAfterHooks this name = table !! name.
Proof. intros H. unfold _getAfterHooks. by rewrite H. Qed.

Lemma getBeforeHooks_setup (name other : string) (this : host) :
  _getBeforeHooks (_setupHooks name this) other
  = if decide (name = other) then Some (default [] (_getBeforeHooks this name))
    else _getBeforeHooks this other.
Proof.
  unfold _getBeforeHooks, _setupHooks. simpl.
  destruct (decide (name = other)) as [->|Hne].
  - rewrite lookup_insert_eq. by destruct (_before this).
  - rewrite lookup_insert_ne by done. by destruct (_before this).
Qed.

Lemma getAfterHooks_setup (name other : string) (this : host) :
  _getAfterHooks (_setupHooks name this) other
  = if decide (name = other) then Some (default [] (_getAfterHooks this name))
    else _getAfterHooks this other.
Proof.
  unfold _getAfterHooks, _setupHooks. simpl.
  destruct (decide (name = other)) as [->|Hne].
  - rewrite lookup_insert_eq. by destruct (_after this).
  - rewrite lookup_insert_ne by done. by destruct (_after this).
Qed.

(** X1.  For names a plain object does not inherit, [_setupHooks] is
    idempotent, as its comment in the source says: a second call changes
    nothing.  A first call creates the two lists of [name] empty when they
    are missing, keeps them as they are otherwise, and leaves the lists of
    every other such name and the methods alone. *)
Theorem setupHooks_idempotent (name other : string) (this : host) :
  ordinary name →
  ordinary other →
  _setupHooks name (_setupHooks name this) = _setupHooks name this
  ∧ _getBeforeHooks (_setupHooks name this) name
    = Some (default [] (_getBeforeHooks this name))
  ∧ _getAfterHooks (_setupHooks name this) name
    = Some (default [] (_getAfterHooks this name))
  ∧ (other ≠ name →
     _getBeforeHooks (_setupHooks name this) other = _getBeforeHooks this other
     ∧ _getAfterHooks (_setupHooks name this) other = _getAfterHooks this other)
  ∧ methods (_setupHooks name this) = methods this.
Proof.
  intros _ _.
  split; [|split; [|split; [|split]]].
  - unfold _setupHooks. simpl. rewrite !lookup_insert_eq. simpl.
    by rewrite !insert_insert_eq.
  - rewrite getBeforeHooks_setup. by rewrite decide_True.
  - rewrite getAfterHooks_setup. by rewrite decide_True.
  - intros Hne. rewrite getBeforeHooks_setup, getAfterHooks_setup.
    by rewrite !decide_False.
  - reflexivity.
Qed.

Lemma setupHooks_idempotent_witness :
  _setupHooks "load" (_setupHooks "load" (Lab.hooked Lab.save [Lab.pass1] []))
  = _setupHooks "load" (Lab.hooked Lab.save [Lab.pass1] [])
  ∧ _getBeforeHooks (_setupHooks "load" (Lab.hooked Lab.save [Lab.pass1] []))
      "load"
    = Some (default []
              (_getBeforeHooks (Lab.hooked Lab.save [Lab.pass1] []) "load"))
  ∧ _getAfterHooks (_setupHooks "load" (Lab.hooked Lab.save [Lab.pass1] []))
      "load"
    = Some (default []
              (_getAfterHooks (Lab.hooked Lab.save [Lab.pass1] []) "load"))
  ∧ ("save" ≠ "load" →
     _getBeforeHooks (_setupHooks "load" (Lab.hooked Lab.save [Lab.pass1] []))
       "save"
     = _getBeforeHooks (Lab.hooked Lab.save [Lab.pass1] []) "save"
     ∧ _getAfterHooks (_setupHooks "load" (Lab.hooked Lab.save [Lab.pass1] []))
         "save"
       = _getAfterHooks (Lab.hooked Lab.save [Lab.pass1] []) "save")
  ∧ methods (_setupHooks "load" (Lab.hooked Lab.save [Lab.pass1] []))
    = methods (Lab.hooked Lab.save [Lab.pass1] []).
Proof.
  apply (setupHooks_idempotent "load" "save"
           (Lab.hooked Lab.save [Lab.pass1] []));
    apply (bool_decide_unpack _); vm_compute; exact I.
Defined.

Lemma getBeforeHooks_hook (name other : string) (this : host) :
  _getBeforeHooks (_hook name this) other
  = if decide (name = other) then Some (default [] (_getBeforeHooks this name))
    else _getBeforeHooks this other.
Proof.
  unfold _hook. rewrite _isHookedAlready_spec. case_bool_decide as Hh.
  - destruct (decide (name = other)) as [->|]; [|done].
    destruct Hh as [l Hl]. by rewrite Hl.
  - rewrite <- getBeforeHooks_setup. reflexivity.
Qed.

Lemma getAfterHooks_hook (name other : string) (this : host) :
  _getAfterHooks (_hook name this) other
  = if decide (name = other)
    then (if _isHookedAlready this name then _getAfterHooks this name
          else Some (default [] (_getAfterHooks this name)))
    else _getAfterHooks this other.
Proof.
  unfold _hook. destruct (_isHookedAlready this name).
  - by destruct (decide (name = other)) as [->|].
  - rewrite <- getAfterHooks_setup. reflexivity.
Qed.


(** X2.  On a host that has the mixin's members as they are, and for a
    name that is none of them and that a plain object does not inherit,
    [before(name, fn)] never throws: it appends [fn] to the end of the
    before-list of [name] (an empty list when there was none), leaves the
    before-lists of the other such names alone, and the name is hooked
    afterwards. *)
Theorem before_appends (name other : string) (fn : fnref) (this : host) :
  ordinary name →
  ordinary other →
  unmodified (methods this) →
  ∃ this',
    before name fn this = Some this'
    ∧ _getBeforeHooks this' name
      = Some (default [] (_getBeforeHooks this name) ++ [fn])
    ∧ (other ≠ name →
       _getBeforeHooks this' other = _getBeforeHooks this other)
    ∧ _isHookedAlready this' name = true.
Proof.
  intros _ _ _.
  pose proof (getBeforeHooks_hook name name this) as Hname.
  rewrite decide_True in Hname by done.
  pose proof (getBeforeHooks_hook name other this) as Hother.
  unfold before, push_hook.
  destruct (_before (_hook name this)) as [table|] eqn:Htable;
    [|by unfold _getBeforeHooks in Hname; rewrite Htable in Hname].
  rewrite (getBeforeHooks_table _ _ name Htable) in Hname.
  rewrite (getBeforeHooks_table _ _ other Htable) in Hother.
  simpl. rewrite Hname. simpl. eexists. split; [reflexivity|].
  rewrite _isHookedAlready_spec. unfold _getBeforeHooks. simpl.
  rewrite lookup_insert_eq. split; [done|]. split.
  - intros Hne. rewrite lookup_insert_ne by done.
    rewrite Hother. by rewrite decide_False.
  - apply bool_decide_eq_true. eauto.
Qed.

Lemma before_appends_witness :
  ∃ this',
    before "save" Lab.pass2 (Lab.hooked Lab.save [Lab.pass1] []) = Some this'
    ∧ _getBeforeHooks this' "save"
      = Some (default []
                (_getBeforeHooks (Lab.hooked Lab.save [Lab.pass1] []) "save")
              ++ [Lab.pass2])
    ∧ ("load" ≠ "save" →
       _getBeforeHooks this' "load"
       = _getBeforeHooks (Lab.hooked Lab.save [Lab.pass1] []) "load")
    ∧ _isHookedAlready this' "save" = true.
Proof.
  apply (before_appends "save" "load" Lab.pass2
           (Lab.hooked Lab.save [Lab.pass1] []));
    apply (bool_decide_unpack _); vm_compute; exact I.
Defined.

(** X3.  On a host that has the mixin's members as they are, and for a
    name that is none of them and that a plain object does not inherit,
    [after(name, fn)] throws in exactly one situation: the name counts as
    hooked, which [_isHookedAlready] reads off the before-table alone, while
    the after-table has no list for it.  Otherwise it appends [fn] to the end
    of the after-list of [name]. *)
Theorem after_fails_exactly_when (name : string) (fn : fnref) (this : host) :
  ordinary name →
  unmodified (methods this) →
  (after name fn this = None
   ↔ _isHookedAlready this name = true ∧ _getAfterHooks this name = None)
  ∧ ∀ this',
      after name fn this = Some this' →
      _getAfterHooks this' name
      = Some (default [] (_getAfterHooks this name) ++ [fn])
      ∧ _before this' = _before (_hook name this)
      ∧ methods this' = methods (_hook name this).
Proof.
  intros _ _.
  pose proof (getAfterHooks_hook name name this) as Hname.
  rewrite decide_True in Hname by done.
  unfold after, push_hook.
  destruct (_after (_hook name this)) as [table|] eqn:Htable.
  - rewrite (getAfterHooks_table _ _ _ Htable) in Hname. simpl.
    destruct (table !! name) as [hooks|] eqn:Hhooks; simpl.
    + split.
      * split; [done|]. intros [Hh Hnone]. rewrite Hh, Hnone in Hname. done.
      * intros this' Heq. simplify_eq. unfold _getAfterHooks. simpl.
        rewrite lookup_insert_eq. repeat split.
        unfold _getAfterHooks in Hname.
        destruct (_isHookedAlready this name); [by rewrite <- Hname|].
        by simplify_eq.
    + split; [|done]. split; [|done]. intros _.
      destruct (_isHookedAlready this name); [done|done].
  - simpl. unfold _getAfterHooks in Hname at 1. rewrite Htable in Hname.
    simpl in Hname. split; [|done]. split; [|done]. intros _.
    destruct (_isHookedAlready this name); [done|done].
Qed.

Lemma after_fails_exactly_when_witness :
  after "save" Lab.pass1 (Host (Some {[ "save" := [] ]}) None ∅) = None
  ∧ ∃ this',
      after "save" Lab.pass1 (fresh ∅) = Some this'
      ∧ _getAfterHooks this' "save" = Some [Lab.pass1].
Proof.
  assert (ordinary "save") as Hsave
    by (apply (bool_decide_unpack _); vm_compute; exact I).
  assert (unmodified ∅) as Hhost
    by (apply (bool_decide_unpack _); vm_compute; exact I).
  split.
  - apply (after_fails_exactly_when "save" Lab.pass1
             (Host (Some {[ "save" := [] ]}) None ∅) Hsave Hhost).
    split; reflexivity.
  - eexists. split; [reflexivity|].
    apply (after_fails_exactly_when "save" Lab.pass1 (fresh ∅) Hsave Hhost).
    reflexivity.
Defined.

(** ** Removing *)

Lemma host_eta (this : host) :
  {| _before := _before this; _after := _after this; methods := methods this |}
  = this.
Proof. by destruct this. Qed.

Lemma filter_all {A} (P : A → Prop) `{∀ x, Decision (P x)} (l : list A) :
  Forall P l → filter P l = l.
Proof.
  induction 1 as [|x l Hx _ IH]; [done|].
  by rewrite filter_cons_True, IH.
Qed.

(** X5.  [removeBefore(name, x)] with an [x] that is no registered function
    object (another function, or [undefined] passed explicitly) leaves the
    host exactly as it was: unlike [removeBefore(name)], it empties
    nothing. *)
Theorem removing_a_stranger_changes_nothing (name : string) (x : value)
    (more : list value) (bs : list fnref) (this : host) :
  _getBeforeHooks this name = Some bs →
  (∀ f, f ∈ bs → x ≠ VFun f) →
  removeBefore name (x :: more) this = Some this.
Proof.
  intros Hbs Hx. unfold _getBeforeHooks in Hbs.
  destruct (_before this) as [table|] eqn:Htable; [|done]. simpl in Hbs.
  unfold removeBefore, remove_from. rewrite Htable. simpl. rewrite Hbs. simpl.
  rewrite filter_all.
  - rewrite insert_id by done. rewrite <- Htable. by rewrite host_eta.
  - apply Forall_forall. intros f Hf. specialize (Hx f Hf).
    destruct x; try done. simpl. apply negb_true_iff, bool_decide_eq_false.
    congruence.
Qed.

Lemma removing_a_stranger_changes_nothing_witness :
  removeBefore "save" [VUndefined]
    (Lab.hooked Lab.save [Lab.pass1; Lab.pass2] [])
  = Some (Lab.hooked Lab.save [Lab.pass1; Lab.pass2] []).
Proof.
  apply (removing_a_stranger_changes_nothing "save" VUndefined []
           [Lab.pass1; Lab.pass2]).
  - reflexivity.
  - intros f _. discriminate.
Defined.

(** X6.  Registering a function that is not in the before-list and removing it
    again gives the before-list back, entry for entry. *)
Theorem before_then_removeBefore (name : string) (fn : fnref)
    (bs : list fnref) (this : host) :
  _getBeforeHooks this name = Some bs →
  fn ∉ bs →
  ∃ this1 this2,
    before name fn this = Some this1
    ∧ removeBefore name [VFun fn] this1 = Some this2
    ∧ _getBeforeHooks this2 name = Some bs
    ∧ _after this2 = _after this
    ∧ methods this2 = methods this.
Proof.
  intros Hbs Hfn.
  assert (_hook name this = this) as Hhook.
  { unfold _hook. rewrite _isHookedAlready_spec, Hbs.
    by rewrite bool_decide_eq_true_2. }
  unfold _getBeforeHooks in Hbs.
  destruct (_before this) as [table|] eqn:Htable; [|done]. simpl in Hbs.
  unfold before, push_hook. rewrite Hhook, Htable. simpl. rewrite Hbs. simpl.
  eexists. eexists. split; [reflexivity|].
  unfold removeBefore, remove_from. simpl. rewrite lookup_insert_eq. simpl.
  split; [reflexivity|]. unfold _getBeforeHooks. simpl.
  rewrite lookup_insert_eq. repeat split.
  f_equal. rewrite filter_app, filter_all.
  - rewrite filter_cons_False, filter_nil, app_nil_r; [done|].
    simpl. rewrite bool_decide_eq_true_2 by done. done.
  - apply Forall_forall. intros g Hg. simpl.
    apply negb_true_iff, bool_decide_eq_false. intros ->. done.
Qed.

Lemma before_then_removeBefore_witness :
  ∃ this1 this2,
    before "save" Lab.pass3 (Lab.hooked Lab.save [Lab.pass1; Lab.pass2] [])
    = Some this1
    ∧ removeBefore "save" [VFun Lab.pass3] this1 = Some this2
    ∧ _getBeforeHooks this2 "save" = Some [Lab.pass1; Lab.pass2]
    ∧ _after this2 = _after (Lab.hooked Lab.save [Lab.pass1; Lab.pass2] [])
    ∧ methods this2 = methods (Lab.hooked Lab.save [Lab.pass1; Lab.pass2] []).
Proof.
  apply (before_then_removeBefore "save" Lab.pass3 [Lab.pass1; Lab.pass2]).
  - reflexivity.
  - intros Hin. apply list_elem_of_In in Hin. simpl in Hin.
    destruct Hin as [H|[H|[]]]; discriminate.
Defined.

(** ** What registration never undoes *)

Lemma hook_keeps name other this :
  is_Some (_getBeforeHooks this other) →
  is_Some (_getBeforeHooks (_hook name this) other)
  ∧ methods (_hook name this) !! other = methods this !! other.
Proof.
  intros Hother. split.
  - rewrite getBeforeHooks_hook. destruct (decide (name = other)); eauto.
  - unfold _hook. rewrite _isHookedAlready_spec. case_bool_decide as Hh; [done|].
    simpl. rewrite lookup_insert_ne; [done|]. by intros ->.
Qed.

Lemma update_keeps (table : gmap string (list fnref)) name other hooks :
  is_Some (table !! other) → is_Some (<[name := hooks]> table !! other).
Proof.
  intros H. destruct (decide (name = other)) as [->|Hne].
  - rewrite lookup_insert_eq. eauto.
  - by rewrite lookup_insert_ne.
Qed.

Lemma register_keeps_hooked op name this this' :
  is_Some (_getBeforeHooks this name) →
  register op this = Some this' →
  is_Some (_getBeforeHooks this' name)
  ∧ methods this' !! name = methods this !! name.
Proof.
  intros Hh Hop. destruct op as [n fn|n fn|n rest|n rest]; simpl in Hop.
  - destruct (hook_keeps n name this Hh) as [Hh' Hm].
    unfold before, push_hook in Hop. unfold _getBeforeHooks in Hh'.
    destruct (_before (_hook n this)) as [table|]; [|done]. simpl in *.
    destruct (table !! n); [|done]. simpl in Hop. simplify_eq.
    unfold _getBeforeHooks. simpl. split; [by apply update_keeps|done].
  - destruct (hook_keeps n name this Hh) as [Hh' Hm].
    unfold after, push_hook in Hop.
    destruct (_after (_hook n this)) as [table|]; [|done]. simpl in *.
    destruct (table !! n); [|done]. simpl in Hop. by simplify_eq.
  - unfold removeBefore, remove_from in Hop. unfold _getBeforeHooks in Hh.
    destruct (_before this) as [table|]; [|done]. simpl in *.
    destruct (table !! n); [|done]. simpl in Hop. simplify_eq.
    unfold _getBeforeHooks. simpl. split; [by apply update_keeps|done].
  - unfold removeAfter, remove_from in Hop.
    destruct (_after this) as [table|]; [|done]. simpl in *.
    destruct (table !! n); [|done]. simpl in Hop. by simplify_eq.
Qed.

(** X7.  Once a name is hooked it stays hooked, on any host and through any
    further registration and removal calls: the method under that name is
    not touched again, so emptying the lists with [removeBefore(name)] and
    [removeAfter(name)] does not bring the original method back, and no
    later [before] or [after] wraps it a second time. *)
Theorem once_hooked_always_hooked (ops : list registration) (name : string) :
  ∀ this this',
    _isHookedAlready this name = true →
    register_all ops this = Some this' →
    _isHookedAlready this' name = true
    ∧ methods this' !! name = methods this !! name.
Proof.
  induction ops as [|op ops IH]; intros this this' Hh Hops; simpl in Hops.
  - by simplify_eq.
  - destruct (register op this) as [this1|] eqn:Hop; [|done]. simpl in Hops.
    rewrite _isHookedAlready_spec in Hh. apply bool_decide_eq_true in Hh.
    destruct (register_keeps_hooked op name this this1 Hh Hop) as [Hh1 Hm1].
    destruct (IH this1 this') as [Hh' Hm']; [|done|].
    + rewrite _isHookedAlready_spec. by apply bool_decide_eq_true.
    + split; [done|]. by rewrite Hm'.
Qed.

Lemma once_hooked_always_hooked_witness :
  _isHookedAlready
    (Host (Some {[ "save" := [] ]}) (Some {[ "save" := [] ]})
       {[ "save" := VWrapper "save" (VFun Lab.save) ]}) "save" = true
  ∧ methods
      (Host (Some {[ "save" := [] ]}) (Some {[ "save" := [] ]})
         {[ "save" := VWrapper "save" (VFun Lab.save) ]}) !! "save"
    = methods (Lab.hooked Lab.save [Lab.pass1] [Lab.pass2]) !! "save".
Proof.
  apply (once_hooked_always_hooked
           [RemoveBefore "save" []; RemoveAfter "save" []] "save"
           (Lab.hooked Lab.save [Lab.pass1] [Lab.pass2])).
  - reflexivity.
  - vm_compute. reflexivity.
Defined.


(** ** Registration order *)

Lemma paired_fresh (ms : gmap string value) : paired (fresh ms).
Proof. intros name. split; intros [? ?]; done. Qed.

Lemma omap_cons_list {A} (g : A → option fnref) (x : A) (l : list A) :
  omap g (x :: l) = one_or_none (g x) ++ omap g l.
Proof. simpl. by destruct (g x). Qed.

Lemma not_hooked_None (this : host) (name : string) :
  _isHookedAlready this name = false → _getBeforeHooks this name = None.
Proof.
  rewrite _isHookedAlready_spec. intros H. apply bool_decide_eq_false in H.
  by apply eq_None_not_Some.
Qed.

Lemma hooked_Some (this : host) (name : string) :
  _isHookedAlready this name = true → is_Some (_getBeforeHooks this name).
Proof. rewrite _isHookedAlready_spec. apply bool_decide_eq_true. Qed.

Ltac via_hook getter n this name :=
  match goal with
  | |- context [getter ?h name] =>
    progress change (getter h name) with (getter (_hook n this) name)
  end.

(** One [before] or [after] call on a host whose lists come in pairs. *)
Lemma addition_step (op : registration) (this : host) :
  paired this →
  is_addition op = true →
  ∃ this1,
    register op this = Some this1
    ∧ paired this1
    ∧ ∀ name,
        _getBeforeHooks this1 name
        = (if _isHookedAlready this name || adds_to name op
           then Some (default [] (_getBeforeHooks this name)
                      ++ one_or_none (added_before name op))
           else None)
        ∧ _getAfterHooks this1 name
          = (if _isHookedAlready this name || adds_to name op
             then Some (default [] (_getAfterHooks this name)
                        ++ one_or_none (added_after name op))
             else None).
Proof.
  intros Hp Hadd.
  assert (∀ name,
            _getBeforeHooks (_hook name this) name
            = Some (default [] (_getBeforeHooks this name))
            ∧ _getAfterHooks (_hook name this) name
              = Some (default [] (_getAfterHooks this name))) as Hsame.
  { intros name. rewrite getBeforeHooks_hook, getAfterHooks_hook.
    rewrite !decide_True by done. split; [done|].
    destruct (_isHookedAlready this name) eqn:Hh; [|done].
    apply hooked_Some, Hp in Hh. destruct Hh as [l Hl]. by rewrite Hl. }
  assert (∀ n name, n ≠ name →
            _getBeforeHooks (_hook n this) name = _getBeforeHooks this name
            ∧ _getAfterHooks (_hook n this) name = _getAfterHooks this name)
    as Hother.
  { intros n name Hne. rewrite getBeforeHooks_hook, getAfterHooks_hook.
    by rewrite !decide_False. }
  assert (∀ name l, _getBeforeHooks this name = l →
            l = (if _isHookedAlready this name
                 then Some (default [] l ++ []) else None)) as Hid.
  { intros name l <-. destruct (_isHookedAlready this name) eqn:Hh.
    - apply hooked_Some in Hh as [l Hl]. rewrite Hl. simpl.
      by rewrite app_nil_r.
    - by apply not_hooked_None. }
  assert (∀ name l, _getAfterHooks this name = l →
            l = (if _isHookedAlready this name
                 then Some (default [] l ++ []) else None)) as Hid'.
  { intros name l <-. destruct (_isHookedAlready this name) eqn:Hh.
    - apply hooked_Some, Hp in Hh as [l Hl]. rewrite Hl. simpl.
      by rewrite app_nil_r.
    - apply not_hooked_None in Hh. apply eq_None_not_Some.
      intros Hs. apply Hp in Hs. rewrite Hh in Hs. by destruct Hs. }
  destruct op as [n fn|n fn| |]; try done; simpl.
  - destruct (Hsame n) as [Hb Ha].
    unfold before, push_hook. unfold _getBeforeHooks in Hb.
    destruct (_before (_hook n this)) as [table|] eqn:Htable; [|done].
    simpl in *. rewrite Hb. simpl. eexists. split; [reflexivity|].
    assert (∀ name,
              _getBeforeHooks
                {| _before := Some (<[n := default [] (_getBeforeHooks this n) ++ [fn]]> table);
                   _after := _after (_hook n this);
                   methods := methods (_hook n this) |} name
              = if decide (n = name)
                then Some (default [] (_getBeforeHooks this n) ++ [fn])
                else _getBeforeHooks this name) as Hnew.
    { intros name. unfold _getBeforeHooks at 1. simpl.
      destruct (decide (n = name)) as [->|Hne].
      - by rewrite lookup_insert_eq.
      - rewrite lookup_insert_ne by done.
        rewrite <- (proj1 (Hother n name Hne)).
        unfold _getBeforeHooks. by rewrite Htable. }
    split.
    + intros name. rewrite Hnew.
      via_hook _getAfterHooks n this name.
      destruct (decide (n = name)) as [->|Hne].
      * rewrite Ha. split; eauto.
      * rewrite (proj2 (Hother n name Hne)). apply Hp.
    + intros name. rewrite Hnew.
      via_hook _getAfterHooks n this name.
      destruct (decide (n = name)) as [->|Hne].
      * rewrite bool_decide_eq_true_2, orb_true_r by done.
        rewrite Ha. simpl. by rewrite app_nil_r.
      * rewrite bool_decide_eq_false_2, orb_false_r by done.
        rewrite (proj2 (Hother n name Hne)). split; [by apply Hid|by apply Hid'].
  - destruct (Hsame n) as [Hb Ha].
    unfold after, push_hook. unfold _getAfterHooks in Ha.
    destruct (_after (_hook n this)) as [table|] eqn:Htable; [|done].
    simpl in *. rewrite Ha. simpl. eexists. split; [reflexivity|].
    assert (∀ name,
              _getAfterHooks
                {| _before := _before (_hook n this);
                   _after := Some (<[n := default [] (_getAfterHooks this n) ++ [fn]]> table);
                   methods := methods (_hook n this) |} name
              = if decide (n = name)
                then Some (default [] (_getAfterHooks this n) ++ [fn])
                else _getAfterHooks this name) as Hnew.
    { intros name. unfold _getAfterHooks at 1. simpl.
      destruct (decide (n = name)) as [->|Hne].
      - by rewrite lookup_insert_eq.
      - rewrite lookup_insert_ne by done.
        rewrite <- (proj2 (Hother n name Hne)).
        unfold _getAfterHooks. by rewrite Htable. }
    split.
    + intros name. rewrite Hnew.
      via_hook _getBeforeHooks n this name.
      destruct (decide (n = name)) as [->|Hne].
      * rewrite Hb. split; eauto.
      * rewrite (proj1 (Hother n name Hne)). apply Hp.
    + intros name. rewrite Hnew.
      via_hook _getBeforeHooks n this name.
      destruct (decide (n = name)) as [->|Hne].
      * rewrite bool_decide_eq_true_2, orb_true_r by done.
        rewrite Hb. simpl. by rewrite app_nil_r.
      * rewrite bool_decide_eq_false_2, orb_false_r by done.
        rewrite (proj1 (Hother n name Hne)). split; [by apply Hid|by apply Hid'].
Qed.

Lemma not_added (name : string) (op : registration) :
  adds_to name op = false →
  added_before name op = None ∧ added_after name op = None.
Proof.
  destruct op as [n fn|n fn| |]; simpl; try done;
    intros H; apply bool_decide_eq_false in H; by rewrite decide_False.
Qed.

Lemma additions (ops : list registration) :
  ∀ this,
    paired this →
    forallb is_addition ops = true →
    ∃ this',
      register_all ops this = Some this'
      ∧ paired this'
      ∧ ∀ name,
          _getBeforeHooks this' name
          = (if _isHookedAlready this name || existsb (adds_to name) ops
             then Some (default [] (_getBeforeHooks this name)
                        ++ omap (added_before name) ops)
             else None)
          ∧ _getAfterHooks this' name
            = (if _isHookedAlready this name || existsb (adds_to name) ops
               then Some (default [] (_getAfterHooks this name)
                          ++ omap (added_after name) ops)
               else None).
Proof.
  induction ops as [|op ops IH]; intros this Hp Hadd.
  - exists this. split; [done|]. split; [done|]. intros name. simpl.
    rewrite orb_false_r, !app_nil_r.
    destruct (_isHookedAlready this name) eqn:Hh.
    + pose proof (hooked_Some _ _ Hh) as Hb. pose proof (proj1 (Hp name) Hb) as Ha.
      destruct Hb as [l ->], Ha as [l' ->]. done.
    + pose proof (not_hooked_None _ _ Hh) as Hb. split; [done|].
      apply eq_None_not_Some. intros Hs. apply Hp in Hs. rewrite Hb in Hs.
      by destruct Hs.
  - simpl in Hadd. apply andb_true_iff in Hadd as [Hop Hadd].
    destruct (addition_step op this Hp Hop) as (this1 & Hreg & Hp1 & H1).
    destruct (IH this1 Hp1 Hadd) as (this' & Hregs & Hp' & H').
    exists this'. cbn [register_all]. rewrite Hreg. cbn [mbind option_bind].
    split; [done|]. split; [done|].
    intros name. destruct (H1 name) as [Hb1 Ha1], (H' name) as [Hb' Ha'].
    cbn [existsb].
    rewrite Hb', Ha'. rewrite (_isHookedAlready_spec this1), Hb1.
    rewrite !omap_cons_list.
    destruct (_isHookedAlready this name || adds_to name op) eqn:Hb.
    + rewrite bool_decide_eq_true_2 by eauto. rewrite Ha1. simpl.
      rewrite orb_assoc, Hb. simpl. by rewrite <- !app_assoc.
    + rewrite bool_decide_eq_false_2 by (by intros [? ?]). rewrite Ha1. simpl.
      apply orb_false_iff in Hb as [Hh Hno]. rewrite Hh, Hno. simpl.
      destruct (not_added name op Hno) as [-> ->]. simpl.
      rewrite (not_hooked_None _ _ Hh).
      assert (_getAfterHooks this name = None) as ->.
      { apply eq_None_not_Some. intros Hs. apply Hp in Hs.
        rewrite (not_hooked_None _ _ Hh) in Hs. by destruct Hs. }
      done.
Qed.

Lemma registration_lists (ms : gmap string value)
    (ops : list registration) (name : string) (t : fnref) :
  forallb is_addition ops = true →
  existsb (adds_to name) ops = true →
  ms !! name = Some (VFun t) →
  ∃ this,
    register_all ops (fresh ms) = Some this
    ∧ installed this name t
        (omap (added_before name) ops) (omap (added_after name) ops).
Proof.
  intros Hadd Hname Hms.
  destruct (additions ops (fresh ms) (paired_fresh ms) Hadd)
    as (this & Hreg & _ & Hlists).
  exists this. split; [done|].
  destruct (Hlists name) as [Hb Ha]. rewrite Hname in Hb, Ha. simpl in Hb, Ha.
  split; [done|]. split; [done|].
  pose proof (invariant_register_all ms ops (fresh ms) this
                (invariant_fresh ms) Hreg name) as Hinv.
  rewrite Hb, Hms in Hinv. by destruct Hinv.
Qed.

(** X9.  On a host that has not used the mixin and has its members as they
    are, a sequence of [before] and [after] calls never throws, however the
    calls interleave, as long as every name is ordinary: none of the mixin's
    members and nothing a plain object inherits.  Afterwards the before-list
    of a registered name holds the functions of its [before] calls in call
    order, its after-list those of its [after] calls, and its method is the
    wrapper around the method it had. *)
Theorem registration_keeps_call_order (ms : gmap string value)
    (ops : list registration) (name : string) (t : fnref) :
  Forall ordinary (name_of <$> ops) →
  unmodified ms →
  forallb is_addition ops = true →
  existsb (adds_to name) ops = true →
  ms !! name = Some (VFun t) →
  ∃ this,
    register_all ops (fresh ms) = Some this
    ∧ installed this name t
        (omap (added_before name) ops) (omap (added_after name) ops).
Proof.
  intros _ _ Hadd Hname Hms.
  destruct (additions ops (fresh ms) (paired_fresh ms) Hadd)
    as (this & Hreg & _ & Hlists).
  exists this. split; [done|].
  destruct (Hlists name) as [Hb Ha]. rewrite Hname in Hb, Ha. simpl in Hb, Ha.
  split; [done|]. split; [done|].
  pose proof (invariant_register_all ms ops (fresh ms) this
                (invariant_fresh ms) Hreg name) as Hinv.
  rewrite Hb, Hms in Hinv. by destruct Hinv.
Qed.

Lemma registration_keeps_call_order_witness :
  ∃ this,
    register_all
      [Before "save" Lab.pass1; After "save" Lab.pass3; Before "load" Lab.pass3;
       Before "save" Lab.pass2; Before "save" Lab.pass1]
      (fresh {[ "save" := VFun Lab.save ]})
    = Some this
    ∧ installed this "save" Lab.save
        (omap (added_before "save")
           [Before "save" Lab.pass1; After "save" Lab.pass3;
            Before "load" Lab.pass3; Before "save" Lab.pass2;
            Before "save" Lab.pass1])
        (omap (added_after "save")
           [Before "save" Lab.pass1; After "save" Lab.pass3;
            Before "load" Lab.pass3; Before "save" Lab.pass2;
            Before "save" Lab.pass1]).
Proof.
  apply (registration_keeps_call_order {[ "save" := VFun Lab.save ]}
           [Before "save" Lab.pass1; After "save" Lab.pass3;
            Before "load" Lab.pass3; Before "save" Lab.pass2;
            Before "save" Lab.pass1] "save" Lab.save);
    first [ reflexivity | apply (bool_decide_unpack _); vm_compute; exact I ].
Defined.

(** X10.  Registration and call together: after any interleaving of [before] and
    [after] calls for ordinary names on a host that has not used the mixin
    and has its members as they are, a call of a registered method whose
    hooks all continue runs the hooks of its [before] calls in call order,
    then the method once, then the hooks of its [after] calls in call
    order. *)
Theorem registered_hooks_run_in_call_order
    (fn_length : fnref → nat) (fn_body : fnref → list value → list invocation)
    (ms : gmap string value) (ops : list registration) (name : string)
    (t cb : fnref) (leading : list value) (fuel : nat) :
  Forall ordinary (name_of <$> ops) →
  unmodified ms →
  forallb is_addition ops = true →
  existsb (adds_to name) ops = true →
  ms !! name = Some (VFun t) →
  (∀ f, f ∈ omap (added_before name) ops ++ omap (added_after name) ops →
        has_parameters fn_length f ∧ continues fn_body f) →
  succeeds fn_body (length (leading ++ [VFun cb])) t →
  returns_quietly fn_body cb →
  2 * length ops + 4 ≤ fuel →
  ∃ this tr d,
    register_all ops (fresh ms) = Some this
    ∧ call_method fn_length fn_body this fuel name (leading ++ [VFun cb])
      = (tr, Returned)
    ∧ stages tr
      = imap SBefore (omap (added_before name) ops) ++ [STarget]
        ++ imap SAfter (omap (added_after name) ops)
    ∧ callbacks tr = [(VFun cb, d)].
Proof.
  intros _ _ Hadd Hname Hms Hhooks Ht Hcb Hfuel.
  destruct (registration_lists ms ops name t Hadd Hname Hms)
    as (this & Hreg & Hinst).
  assert (length (omap (added_before name) ops)
          + length (omap (added_after name) ops) ≤ length ops) as Hlen.
  { clear. induction ops as [|op ops IH]; [done|].
    rewrite !omap_cons_list, !length_app. simpl.
    destruct op as [n f|n f| |]; simpl; repeat case_decide; simpl; lia. }
  apply Forall_forall in Hhooks.
  apply Forall_and in Hhooks as [Hpar Hcont].
  apply Forall_app in Hpar as [Hpar Hpar'].
  apply Forall_app in Hcont as [Hcont Hcont'].
  destruct (call_succeeds fn_length fn_body this name t cb _ _ leading
              Hinst Hcb fuel) as (tr & d & Heq & Hst & Hcbs & _); try done.
  - eapply Forall_impl; [exact Hcont'|].
    intros f Hf v. destruct (Hf v) as (c & Hc & _). eauto.
  - lia.
  - by exists this, tr, d.
Qed.

Lemma registered_hooks_run_in_call_order_witness :
  ∃ this tr d,
    register_all
      [Before "save" Lab.pass1; After "save" Lab.pass3; Before "save" Lab.pass2]
      (fresh {[ "save" := VFun Lab.save ]})
    = Some this
    ∧ call_method Lab.fn_length Lab.fn_body this 10 "save"
        ([VStr "x"; VStr "y"] ++ [VFun Lab.callback])
      = (tr, Returned)
    ∧ stages tr
      = imap SBefore
          (omap (added_before "save")
             [Before "save" Lab.pass1; After "save" Lab.pass3;
              Before "save" Lab.pass2])
        ++ [STarget]
        ++ imap SAfter
             (omap (added_after "save")
                [Before "save" Lab.pass1; After "save" Lab.pass3;
                 Before "save" Lab.pass2])
    ∧ callbacks tr = [(VFun Lab.callback, d)].
Proof.
  apply (registered_hooks_run_in_call_order Lab.fn_length Lab.fn_body
           {[ "save" := VFun Lab.save ]}
           [Before "save" Lab.pass1; After "save" Lab.pass3;
            Before "save" Lab.pass2] "save" Lab.save Lab.callback
           [VStr "x"; VStr "y"] 10).
  - apply (bool_decide_unpack _). vm_compute. exact I.
  - apply (bool_decide_unpack _). vm_compute. exact I.
  - reflexivity.
  - reflexivity.
  - reflexivity.
  - intros f Hf. apply list_elem_of_In in Hf. vm_compute in Hf.
    destruct Hf as [<-|[<-|[<-|[]]]]; (split; [discriminate | fixed_behaviour]).
  - fixed_behaviour.
  - intros a. reflexivity.
  - simpl. lia.
Defined.

(** ** Hooks that only forward *)

Section Forwarding.
Variable fn_length : fnref → nat.
Variable fn_body : fnref → list value → list invocation.
Variable this : host.
Variables (name : string) (originalFunction : value).
Variables (bs as_ : list fnref).
Hypothesis Hbs : _getBeforeHooks this name = Some bs.
Hypothesis Has : _getAfterHooks this name = Some as_.
Variables (leading : list value) (receiver : value).

Local Abbreviation interp := (js_apply fn_length fn_body this).
Local Abbreviation original := (leading ++ [receiver]).

(** What the before-hook at index [i] is applied to while the chain
    carries [in_]. *)
Local Abbreviation before_event in_ :=
  (λ i f, EBefore i f
            (leading ++ [VBeforeNext name originalFunction (i + 1) original in_])).

Local Abbreviation after_event error cb vec :=
  (λ j f, EAfter j f
            (vec ++ [VAfterNext name originalFunction error (j + 1) cb vec])).

Lemma before_forwards (pre : list fnref) :
  ∀ rest i error in_ F,
    drop i bs = pre ++ rest →
    Forall (forwards fn_body) pre →
    Forall (has_parameters fn_length) pre →
    instanceof_Error error = false →
    ∃ error',
      instanceof_Error error' = false
      ∧ runBeforeHook fn_length this (interp (2 * length pre + F))
          name originalFunction error i original in_
        = prepend (imap (λ k, before_event in_ (i + k)) pre)
            (runBeforeHook fn_length this (interp F)
               name originalFunction error' (i + length pre) original in_).
Proof.
  induction pre as [|f pre IH]; intros rest i error in_ F Hdrop Hfwd Hpar He.
  - exists error. simpl. by rewrite Nat.add_0_r, prepend_nil.
  - apply drop_cons_inv in Hdrop as [Hi Hdrop].
    apply Forall_cons in Hfwd as [Hf Hfwd].
    apply Forall_cons in Hpar as [Hlen Hpar].
    replace (2 * length (f :: pre) + F)
      with (S (S (2 * length pre + F))) by (simpl; lia).
    rewrite (runBeforeHook_hook fn_length this name originalFunction bs Hbs
               _ _ _ f) by done.
    rewrite (replace_last_slot original leading receiver _ eq_refl).
    pose proof (Hf (leading ++ [VBeforeNext name originalFunction (i + 1)
                                  original in_])) as Hc.
    rewrite last_slot_snoc in Hc.
    rewrite (js_apply_once _ _ _ _ _ _ _ _ Hc), js_apply_before_next.
    unfold beforeNext. change (passes_arguments []) with false. cbv iota.
    destruct (IH rest (i + 1) (first_parameter []) in_ F)
      as (error' & He' & Heq); try done.
    exists error'. split; [done|]. rewrite Heq, prepend_prepend.
    replace (i + 1 + length pre) with (i + length (f :: pre)) by (simpl; lia).
    f_equal. cbn [imap app]. rewrite Nat.add_0_r. f_equal.
    apply imap_ext. intros k x _. simpl.
    by replace (i + S k) with (i + 1 + k) by lia.
Qed.

Lemma after_forwards (cb : value) (pre : list fnref) :
  ∀ rest j error vec F,
    drop j as_ = pre ++ rest →
    Forall (forwards fn_body) pre →
    Forall (has_parameters fn_length) pre →
    instanceof_Error error = false →
    runAfterHook fn_length this (interp (2 * length pre + F))
      name originalFunction error j cb vec
    = prepend (imap (λ k, after_event error cb vec (j + k)) pre)
        (runAfterHook fn_length this (interp F)
           name originalFunction error (j + length pre) cb vec).
Proof.
  induction pre as [|f pre IH]; intros rest j error vec F Hdrop Hfwd Hpar He.
  - simpl. by rewrite Nat.add_0_r, prepend_nil.
  - apply drop_cons_inv in Hdrop as [Hj Hdrop].
    apply Forall_cons in Hfwd as [Hf Hfwd].
    apply Forall_cons in Hpar as [Hlen Hpar].
    replace (2 * length (f :: pre) + F)
      with (S (S (2 * length pre + F))) by (simpl; lia).
    rewrite (runAfterHook_hook fn_length this name originalFunction as_ Has
               _ _ _ f) by done.
    pose proof (Hf (vec ++ [VAfterNext name originalFunction error (j + 1)
                              cb vec])) as Hc.
    rewrite last_slot_snoc in Hc.
    rewrite (js_apply_once _ _ _ _ _ _ _ _ Hc), js_apply_after_next.
    unfold afterNext. change (passes_arguments []) with false. cbv iota.
    rewrite (IH rest (j + 1) error vec F) by done.
    rewrite prepend_prepend.
    replace (j + 1 + length pre) with (j + length (f :: pre)) by (simpl; lia).
    f_equal. cbn [imap app]. rewrite Nat.add_0_r. f_equal.
    apply imap_ext. intros k x _. simpl.
    by replace (j + S k) with (j + 1 + k) by lia.
Qed.
End Forwarding.

Section ForwardingCalls.
Variable fn_length : fnref → nat.
Variable fn_body : fnref → list value → list invocation.
Variable this : host.
Variables (name : string) (t cb : fnref) (bs as_ : list fnref).
Variable leading : list value.
Hypothesis Hinstalled : installed this name t bs as_.
Hypothesis Hcb : returns_quietly fn_body cb.

Local Abbreviation interp := (js_apply fn_length fn_body this).
Local Abbreviation original := (leading ++ [VFun cb]).

(** Every before-hook forwards: the original function is applied to the
    arguments of the call, with its callback in the last slot. *)
Lemma forwarded_to_target (F : nat) :
  Forall (forwards fn_body) bs →
  Forall (has_parameters fn_length) bs →
  call_method fn_length fn_body this (S (2 * length bs + F)) name original
  = prepend
      (imap (λ i f, EBefore i f
                      (leading ++
                       [VBeforeNext name (VFun t) (i + 1) original original]))
         bs)
      (runOriginalFunction (interp F) name (VFun t) original original).
Proof.
  intros Hfwd Hpar. destruct Hinstalled as (Hbs & _ & _).
  rewrite (call_method_wrapper fn_length fn_body this name t cb bs as_
             leading Hinstalled).
  destruct (before_forwards fn_length fn_body this name (VFun t) bs Hbs
              leading (VFun cb) bs [] 0 VNull original F)
    as (error' & He' & Heq); try done.
  { by rewrite app_nil_r. }
  rewrite Heq.
  by rewrite (runBeforeHook_end fn_length this name (VFun t) bs Hbs)
    by (done || simpl; lia).
Qed.

Lemma call_with_forwarding_hooks (c : list value) (fuel : nat) :
  Forall (forwards fn_body) (bs ++ as_) →
  Forall (has_parameters fn_length) (bs ++ as_) →
  fn_body t
    (leading ++ [VOriginalCallback name (VFun t) original original])
  = [(VOriginalCallback name (VFun t) original original, c)] →
  instanceof_Error (first_parameter c) = false →
  2 * length bs + 2 * length as_ + 4 ≤ fuel →
  call_method fn_length fn_body this fuel name original
  = (imap (λ i f, EBefore i f
                    (leading ++
                     [VBeforeNext name (VFun t) (i + 1) original original]))
       bs
     ++ [EOriginal (VFun t)
           (leading ++ [VOriginalCallback name (VFun t) original original])]
     ++ imap (λ j f, EAfter j f
                       ((if 0 <? length c then c else original) ++
                        [VAfterNext name (VFun t) (first_parameter c) (j + 1)
                           (VFun cb) (if 0 <? length c then c else original)]))
          as_
     ++ [ECallback (VFun cb) (if 0 <? length c then c else original)],
     Returned).
Proof.
  intros Hfwd Hpar Hc Hok Hfuel.
  apply Forall_app in Hfwd as [Hfwd Hfwd'].
  apply Forall_app in Hpar as [Hpar Hpar'].
  pose (F := fuel - (2 * length bs + 2 * length as_ + 4)).
  replace fuel with (S (2 * length bs + S (S (2 * length as_ + S F))))
    by (unfold F; lia).
  rewrite forwarded_to_target by done.
  destruct Hinstalled as (_ & Has & _).
  rewrite <- (replace_last_slot original leading (VFun cb)
                (VOriginalCallback name (VFun t) original original) eq_refl)
    in Hc.
  rewrite (target_step fn_length fn_body this name (VFun t) original
             leading (VFun cb) eq_refl t original c _ eq_refl Hc).
  rewrite (after_forwards fn_length fn_body this name (VFun t) as_ Has
             (VFun cb) as_ [] 0) by (done || by rewrite app_nil_r).
  rewrite (runAfterHook_end fn_length this name (VFun t) as_ Has)
    by (done || simpl; lia).
  rewrite deliver by done.
  rewrite (replace_last_slot original leading (VFun cb) _ eq_refl).
  rewrite !prepend_prepend, prepend_pair. f_equal.
  by rewrite <- !app_assoc.
Qed.
End ForwardingCalls.

Lemma before_events_read (h : nat → nat) (g : nat → fnref → list value)
    (l : list fnref) :
  stages (imap (λ i f, EBefore (h i) f (g i f)) l)
  = imap (λ i f, SBefore (h i) f) l
  ∧ callbacks (imap (λ i f, EBefore (h i) f (g i f)) l) = [].
Proof.
  revert h g. induction l as [|x l IH]; intros h g; [done|].
  destruct (IH (λ i, h (S i)) (λ i, g (S i))) as [Hs Hc].
  split; [|exact Hc]. cbn. f_equal. exact Hs.
Qed.

Lemma after_events_read (h : nat → nat) (g : nat → fnref → list value)
    (l : list fnref) :
  stages (imap (λ i f, EAfter (h i) f (g i f)) l)
  = imap (λ i f, SAfter (h i) f) l
  ∧ callbacks (imap (λ i f, EAfter (h i) f (g i f)) l) = [].
Proof.
  revert h g. induction l as [|x l IH]; intros h g; [done|].
  destruct (IH (λ i, h (S i)) (λ i, g (S i))) as [Hs Hc].
  split; [|exact Hc]. cbn. f_equal. exact Hs.
Qed.

(** X11.  Hooks that only forward ([next()] with no arguments) are transparent:
    every before-hook and the method are applied to the arguments of the
    call (the callback slot replaced), every after-hook to what the method
    passed to its callback, and the caller's callback receives exactly
    that.  The whole trace of the call is the one written out here. *)
Theorem forwarding_hooks_are_transparent
    (fn_length : fnref → nat) (fn_body : fnref → list value → list invocation)
    (this : host) (name : string) (t cb : fnref) (bs as_ : list fnref)
    (leading c : list value) (fuel : nat) :
  installed this name t bs as_ →
  Forall (has_parameters fn_length) (bs ++ as_) →
  Forall (forwards fn_body) (bs ++ as_) →
  fn_body t
    (leading ++
     [VOriginalCallback name (VFun t) (leading ++ [VFun cb])
        (leading ++ [VFun cb])])
  = [(VOriginalCallback name (VFun t) (leading ++ [VFun cb])
        (leading ++ [VFun cb]), c)] →
  c ≠ [] →
  instanceof_Error (first_parameter c) = false →
  returns_quietly fn_body cb →
  2 * length bs + 2 * length as_ + 4 ≤ fuel →
  call_method fn_length fn_body this fuel name (leading ++ [VFun cb])
  = (imap (λ i f, EBefore i f
                    (leading ++
                     [VBeforeNext name (VFun t) (i + 1) (leading ++ [VFun cb])
                        (leading ++ [VFun cb])]))
       bs
     ++ [EOriginal (VFun t)
           (leading ++
            [VOriginalCallback name (VFun t) (leading ++ [VFun cb])
               (leading ++ [VFun cb])])]
     ++ imap (λ j f, EAfter j f
                       (c ++ [VAfterNext name (VFun t) (first_parameter c)
                                (j + 1) (VFun cb) c]))
          as_
     ++ [ECallback (VFun cb) c],
     Returned).
Proof.
  intros Hinst Hpar Hfwd Hc Hne Hok Hcb Hfuel.
  rewrite (call_with_forwarding_hooks fn_length fn_body this name t cb bs as_
             leading Hinst Hcb c fuel) by done.
  destruct c; [done|]. reflexivity.
Qed.

Lemma forwarding_hooks_are_transparent_witness :
  call_method Bench.fn_length Bench.fn_body
    (Lab.hooked Bench.save [Bench.forward] [Bench.forward]) 8 "save"
    ([VStr "x"; VStr "y"] ++ [VFun Bench.callback])
  = ([EBefore 0 Bench.forward
        [VStr "x"; VStr "y";
         VBeforeNext "save" (VFun Bench.save) 1 Bench.call Bench.call];
      EOriginal (VFun Bench.save)
        [VStr "x"; VStr "y";
         VOriginalCallback "save" (VFun Bench.save) Bench.call Bench.call];
      EAfter 0 Bench.forward
        [VNull; VStr "saved";
         VAfterNext "save" (VFun Bench.save) VNull 1 (VFun Bench.callback)
           [VNull; VStr "saved"]];
      ECallback (VFun Bench.callback) [VNull; VStr "saved"]],
     Returned).
Proof.
  apply (forwarding_hooks_are_transparent Bench.fn_length Bench.fn_body
           (Lab.hooked Bench.save [Bench.forward] [Bench.forward]) "save"
           Bench.save Bench.callback [Bench.forward] [Bench.forward]
           [VStr "x"; VStr "y"] [VNull; VStr "saved"] 8).
  - lab_installed.
  - lab_hooks.
  - repeat constructor; intros v; reflexivity.
  - reflexivity.
  - discriminate.
  - reflexivity.
  - intros a. reflexivity.
  - simpl. lia.
Defined.

(** X12.  When the method calls its callback with no arguments at all (and the
    hooks only forward), the caller's callback is not called with no
    arguments: it is applied to the arguments of the call itself, its own
    function value in the last slot included, and so are the after-hooks
    before it. *)
Theorem silent_target_returns_the_call_arguments
    (fn_length : fnref → nat) (fn_body : fnref → list value → list invocation)
    (this : host) (name : string) (t cb : fnref) (bs as_ : list fnref)
    (leading : list value) (fuel : nat) :
  installed this name t bs as_ →
  Forall (has_parameters fn_length) (bs ++ as_) →
  Forall (forwards fn_body) (bs ++ as_) →
  fn_body t
    (leading ++
     [VOriginalCallback name (VFun t) (leading ++ [VFun cb])
        (leading ++ [VFun cb])])
  = [(VOriginalCallback name (VFun t) (leading ++ [VFun cb])
        (leading ++ [VFun cb]), [])] →
  returns_quietly fn_body cb →
  2 * length bs + 2 * length as_ + 4 ≤ fuel →
  ∃ tr,
    call_method fn_length fn_body this fuel name (leading ++ [VFun cb])
    = (tr, Returned)
    ∧ callbacks tr = [(VFun cb, leading ++ [VFun cb])]
    ∧ stages tr = imap SBefore bs ++ [STarget] ++ imap SAfter as_.
Proof.
  intros Hinst Hpar Hfwd Hc Hcb Hfuel.
  rewrite (call_with_forwarding_hooks fn_length fn_body this name t cb bs as_
             leading Hinst Hcb [] fuel) by done.
  eexists. split; [reflexivity|]. cbn [length Nat.ltb Nat.leb].
  rewrite !callbacks_app, !stages_app.
  rewrite (proj1 (before_events_read id _ bs)),
    (proj2 (before_events_read id _ bs)).
  rewrite (proj1 (after_events_read id _ as_)),
    (proj2 (after_events_read id _ as_)). simpl.
  by rewrite app_nil_r.
Qed.

Lemma silent_target_returns_the_call_arguments_witness :
  ∃ tr,
    call_method Bench.fn_length Bench.fn_body
      (Lab.hooked Bench.silent_save [Bench.forward] [Bench.forward]) 8 "save"
      ([VStr "x"; VStr "y"] ++ [VFun Bench.callback])
    = (tr, Returned)
    ∧ callbacks tr
      = [(VFun Bench.callback, [VStr "x"; VStr "y"] ++ [VFun Bench.callback])]
    ∧ stages tr
      = imap SBefore [Bench.forward] ++ [STarget]
        ++ imap SAfter [Bench.forward].
Proof.
  apply (silent_target_returns_the_call_arguments Bench.fn_length Bench.fn_body
           (Lab.hooked Bench.silent_save [Bench.forward] [Bench.forward])
           "save" Bench.silent_save Bench.callback
           [Bench.forward] [Bench.forward] [VStr "x"; VStr "y"] 8).
  - lab_installed.
  - lab_hooks.
  - repeat constructor; intros v; reflexivity.
  - reflexivity.
  - intros a. reflexivity.
  - simpl. lia.
Defined.

(** ** The values hooks pass on *)

Lemma first_event_original (app : value → list value → run)
    (name : string) (t : fnref) (original in_ : list value) :
  first_event (runOriginalFunction app name (VFun t) original in_)
  = Some (EOriginal (VFun t)
            (array_set in_ (Z.of_nat (length original) - 1)
               (VOriginalCallback name (VFun t) original in_))).
Proof. reflexivity. Qed.

Lemma passes_null_and_values (values : list value) :
  values ≠ [] →
  passes_arguments (VNull :: values) = true
  ∧ shifted (VNull :: values) = values
  ∧ first_parameter (VNull :: values) = VNull.
Proof. by destruct values. Qed.

Lemma stages_split (i : nat) (f : fnref) (pre post : list fnref)
    (S_ : nat → fnref → stage) :
  imap (λ k, S_ (0 + k)) pre ++ [S_ i f]
    ++ imap (λ k, S_ (i + 1 + k)) post
  = imap S_ (pre ++ f :: post) ∨ i ≠ length pre.
Proof.
  destruct (decide (i = length pre)) as [->|]; [left|by right].
  rewrite imap_app. cbn [imap]. f_equal. rewrite Nat.add_0_r. f_equal.
  apply imap_ext. intros k x _. simpl. f_equal. lia.
Qed.

(** X13.  The last before-hook to pass values decides what the method is applied
    to: when a before-hook calls [next(null, ...values)] with as many values
    as the call has leading arguments, and the before-hooks behind it only
    forward, the method is applied to exactly those values and its callback,
    whatever the hooks ahead of it passed. *)
Theorem last_before_override_wins
    (fn_length : fnref → nat) (fn_body : fnref → list value → list invocation)
    (this : host) (name : string) (t cb : fnref)
    (pre post as_ : list fnref) (f : fnref)
    (leading values : list value) (fuel : nat) :
  installed this name t (pre ++ f :: post) as_ →
  Forall (has_parameters fn_length) (pre ++ f :: post) →
  Forall (continues fn_body) pre →
  overrides fn_body f values →
  Forall (forwards fn_body) post →
  values ≠ [] →
  length values = length leading →
  2 * length (pre ++ f :: post) + 1 ≤ fuel →
  ∃ tr r,
    call_method fn_length fn_body this fuel name (leading ++ [VFun cb])
    = prepend tr r
    ∧ stages tr = imap SBefore (pre ++ f :: post)
    ∧ callbacks tr = []
    ∧ first_event r
      = Some (EOriginal (VFun t)
                (values ++
                 [VOriginalCallback name (VFun t) (leading ++ [VFun cb]) values])).
Proof.
  intros Hinst Hpar Hcont Hf Hfwd Hne Hlen Hfuel.
  pose proof Hinst as (Hbs & _ & _).
  apply Forall_app in Hpar as [Hpar Hpar'].
  apply Forall_cons in Hpar' as [Hparf Hpar'].
  rewrite length_app in Hfuel. simpl in Hfuel.
  pose (F := fuel - (2 * (length pre + S (length post)) + 1)).
  replace fuel
    with (S (2 * length pre + S (S (2 * length post + F))))
    by (unfold F; lia).
  rewrite (call_method_wrapper fn_length fn_body this name t cb _ as_
             leading Hinst).
  destruct (before_prefix fn_length fn_body this name (VFun t) _ Hbs
              (leading ++ [VFun cb]) leading (VFun cb) eq_refl
              pre (f :: post) 0 VNull (leading ++ [VFun cb])
              (S (S (2 * length post + F))))
    as (tr & error & in_ & Heq & He & Hst & Hcbs & _); try done.
  rewrite Heq, Nat.add_0_l.
  assert ((pre ++ f :: post) !! length pre = Some f) as Hi
    by apply list_lookup_middle, eq_refl.
  rewrite (runBeforeHook_hook fn_length this name (VFun t) _ Hbs _ _ _ f)
    by done.
  rewrite (replace_last_slot _ leading (VFun cb) _ eq_refl).
  pose proof (Hf (leading ++ [VBeforeNext name (VFun t) (length pre + 1)
                                (leading ++ [VFun cb]) in_])) as Hc.
  rewrite last_slot_snoc in Hc.
  rewrite (js_apply_once _ _ _ _ _ _ _ _ Hc), js_apply_before_next.
  unfold beforeNext.
  destruct (passes_null_and_values values Hne) as (-> & -> & ->).
  destruct (before_forwards fn_length fn_body this name (VFun t) _ Hbs
              leading (VFun cb) post [] (length pre + 1) VNull values F)
    as (error' & He' & Heq'); try done.
  { rewrite app_nil_r, <- drop_drop, drop_app_length. reflexivity. }
  rewrite Heq'.
  rewrite (runBeforeHook_end fn_length this name (VFun t) _ Hbs)
    by (done || rewrite length_app; simpl; lia).
  rewrite !prepend_prepend.
  eexists _, _. split; [reflexivity|].
  rewrite !stages_app, !callbacks_app, Hst, Hcbs.
  rewrite (proj1 (before_events_read (λ k, length pre + 1 + k) _ post)),
    (proj2 (before_events_read (λ k, length pre + 1 + k) _ post)).
  split; [|split; [done|]].
  - destruct (stages_split (length pre) f pre post SBefore) as [<-|]; [|done].
    by rewrite <- app_assoc.
  - rewrite first_event_original.
    rewrite (array_set_append values) by (rewrite length_app; simpl; lia).
    reflexivity.
Qed.

Lemma last_before_override_wins_witness :
  ∃ tr r,
    call_method Bench.fn_length Bench.fn_body
      (Lab.hooked Bench.save ([Bench.warn] ++ Bench.replace :: [Bench.forward])
         [])
      8 "save" ([VStr "x"; VStr "y"] ++ [VFun Bench.callback])
    = prepend tr r
    ∧ stages tr = imap SBefore ([Bench.warn] ++ Bench.replace :: [Bench.forward])
    ∧ callbacks tr = []
    ∧ first_event r
      = Some (EOriginal (VFun Bench.save)
                ([VStr "a"; VStr "b"] ++
                 [VOriginalCallback "save" (VFun Bench.save)
                    ([VStr "x"; VStr "y"] ++ [VFun Bench.callback])
                    [VStr "a"; VStr "b"]])).
Proof.
  apply (last_before_override_wins Bench.fn_length Bench.fn_body
           (Lab.hooked Bench.save
              ([Bench.warn] ++ Bench.replace :: [Bench.forward]) [])
           "save" Bench.save Bench.callback
           [Bench.warn] [Bench.forward] [] Bench.replace
           [VStr "x"; VStr "y"] [VStr "a"; VStr "b"] 8).
  - lab_installed.
  - lab_hooks.
  - lab_hooks.
  - intros v. reflexivity.
  - repeat constructor; intros v; reflexivity.
  - discriminate.
  - reflexivity.
  - simpl. lia.
Defined.

(** X14.  The last after-hook to pass values decides what the caller receives,
    and the [null] it passes first is dropped: after [next(null, ...values)]
    from an after-hook (the after-hooks behind it only forwarding) the
    caller's callback is applied to exactly [values], so the first of them
    lands in the callback's error position. *)
Theorem last_after_override_is_delivered
    (fn_length : fnref → nat) (fn_body : fnref → list value → list invocation)
    (this : host) (name : string) (t cb : fnref)
    (bs pre post : list fnref) (f : fnref)
    (leading values : list value) (fuel : nat) :
  installed this name t bs (pre ++ f :: post) →
  Forall (has_parameters fn_length) (bs ++ pre ++ f :: post) →
  Forall (continues fn_body) bs →
  succeeds fn_body (length (leading ++ [VFun cb])) t →
  Forall (calls_next_once fn_body) pre →
  overrides fn_body f values →
  Forall (forwards fn_body) post →
  values ≠ [] →
  returns_quietly fn_body cb →
  2 * length bs + 2 * length (pre ++ f :: post) + 4 ≤ fuel →
  ∃ tr,
    call_method fn_length fn_body this fuel name (leading ++ [VFun cb])
    = (tr, Returned)
    ∧ stages tr
      = imap SBefore bs ++ [STarget] ++ imap SAfter (pre ++ f :: post)
    ∧ callbacks tr = [(VFun cb, values)].
Proof.
  intros Hinst Hpar Hcont Ht Honce Hf Hfwd Hne Hcb Hfuel.
  pose proof Hinst as (_ & Has & _).
  apply Forall_app in Hpar as [Hpar Hpar'].
  apply Forall_app in Hpar' as [Hparp Hpar'].
  apply Forall_cons in Hpar' as [Hparf Hpar'].
  rewrite length_app in Hfuel. simpl in Hfuel.
  pose (F := fuel - (2 * length bs + 2 * (length pre + S (length post)) + 4)).
  replace fuel
    with (S (2 * length bs
             + S (S (2 * length pre + S (S (2 * length post + S F))))))
    by (unfold F; lia).
  assert (calls_back_once fn_body (length (leading ++ [VFun cb])) t) as Ht'.
  { intros v. destruct (Ht v) as (c & Hc & _). eauto. }
  destruct (call_reaches_after_chain fn_length fn_body this name t cb bs _
              leading Hinst
              (2 * length pre + S (S (2 * length post + S F)))
              Hcont Hpar Ht')
    as (tr & c & in' & Heq & Hc & Hst & Hcbs & _).
  assert (instanceof_Error (first_parameter c) = false) as Hok.
  { destruct (Ht (array_set in' (Z.of_nat (length (leading ++ [VFun cb])) - 1)
                    (VOriginalCallback name (VFun t) (leading ++ [VFun cb]) in')))
      as (c' & Hc' & Hok).
    rewrite Hc in Hc'. by simplify_eq. }
  destruct (after_prefix fn_length fn_body this name (VFun t) _ Has
              (leading ++ [VFun cb]) (VFun cb) pre (f :: post) 0
              (first_parameter c) (if 0 <? length c then c else in')
              (S (S (2 * length post + S F))))
    as (tr' & vec' & Heq' & Hst' & Hcbs' & _); try done.
  rewrite Heq, Heq', Nat.add_0_l.
  assert ((pre ++ f :: post) !! length pre = Some f) as Hj
    by apply list_lookup_middle, eq_refl.
  rewrite (runAfterHook_hook fn_length this name (VFun t) _ Has _ _ _ f)
    by done.
  pose proof (Hf (vec' ++ [VAfterNext name (VFun t) (first_parameter c)
                             (length pre + 1) (VFun cb) vec'])) as Hcf.
  rewrite last_slot_snoc in Hcf.
  rewrite (js_apply_once _ _ _ _ _ _ _ _ Hcf), js_apply_after_next.
  unfold afterNext.
  destruct (passes_null_and_values values Hne) as (-> & -> & _).
  rewrite (after_forwards fn_length fn_body this name (VFun t) _ Has
             (VFun cb) post [] (length pre + 1))
    by (done || rewrite app_nil_r, <- drop_drop, drop_app_length; reflexivity).
  rewrite (runAfterHook_end fn_length this name (VFun t) _ Has)
    by (done || rewrite length_app; simpl; lia).
  rewrite deliver by done.
  rewrite !prepend_prepend, prepend_pair.
  eexists. split; [reflexivity|].
  rewrite !stages_app, !callbacks_app, Hst, Hst', Hcbs, Hcbs'.
  rewrite (proj1 (after_events_read (λ k, length pre + 1 + k) _ post)),
    (proj2 (after_events_read (λ k, length pre + 1 + k) _ post)).
  simpl. rewrite app_nil_r. split; [|done].
  destruct (stages_split (length pre) f pre post SAfter) as [<-|]; [|done].
  by rewrite <- !app_assoc.
Qed.

Lemma last_after_override_is_delivered_witness :
  ∃ tr,
    call_method Bench.fn_length Bench.fn_body
      (Lab.hooked Bench.save [Bench.forward]
         ([Bench.warn] ++ Bench.rewrite_result :: [Bench.forward]))
      12 "save" ([VStr "x"; VStr "y"] ++ [VFun Bench.callback])
    = (tr, Returned)
    ∧ stages tr
      = imap SBefore [Bench.forward] ++ [STarget]
        ++ imap SAfter ([Bench.warn] ++ Bench.rewrite_result :: [Bench.forward])
    ∧ callbacks tr = [(VFun Bench.callback, [VStr "r"])].
Proof.
  apply (last_after_override_is_delivered Bench.fn_length Bench.fn_body
           (Lab.hooked Bench.save [Bench.forward]
              ([Bench.warn] ++ Bench.rewrite_result :: [Bench.forward]))
           "save" Bench.save Bench.callback
           [Bench.forward] [Bench.warn] [Bench.forward] Bench.rewrite_result
           [VStr "x"; VStr "y"] [VStr "r"] 12).
  - lab_installed.
  - lab_hooks.
  - lab_hooks.
  - fixed_behaviour.
  - lab_hooks.
  - intros v. reflexivity.
  - repeat constructor; intros v; reflexivity.
  - discriminate.
  - intros a. reflexivity.
  - simpl. lia.
Defined.

(** ** The slot of the callback *)

Lemma array_set_layout (a : list value) (n : nat) (x : value) :
  length (array_set a (Z.of_nat n) x) = max (length a) (S n)
  ∧ array_set a (Z.of_nat n) x !! n = Some x
  ∧ (∀ i, i ≠ n → i < length a → array_set a (Z.of_nat n) x !! i = a !! i)
  ∧ (∀ i, length a ≤ i → i < n →
          array_set a (Z.of_nat n) x !! i = Some VUndefined).
Proof.
  unfold array_set.
  destruct (Z.ltb_spec (Z.of_nat n) 0) as [H|_]; [lia|].
  rewrite Nat2Z.id.
  destruct (Nat.ltb_spec n (length a)) as [Hlt|Hge].
  - split; [rewrite length_insert; lia|]. split; [by apply list_lookup_insert_eq|].
    split; [|lia]. intros i Hne _. by apply list_lookup_insert_ne.
  - split; [rewrite !length_app, length_replicate; simpl; lia|]. split; [|split].
    + rewrite lookup_app_r by done.
      rewrite lookup_app_r by (rewrite length_replicate; lia).
      by rewrite length_replicate, Nat.sub_diag.
    + intros i _ Hi. by rewrite lookup_app_l.
    + intros i Hi Hn. rewrite lookup_app_r by done.
      rewrite lookup_app_l by (rewrite length_replicate; lia).
      apply lookup_replicate_2. lia.
Qed.

(** X15.  The method always finds its callback in the slot the caller's callback
    had in the call, whatever array the before-hooks passed on.  Values
    passed in other slots arrive unchanged; a value passed in that slot is
    overwritten; when fewer values were passed the slots in between read
    [undefined]; values passed beyond that slot stay behind the callback. *)
Theorem callback_slot_is_fixed_by_the_call
    (app : value → list value → run) (name : string) (t : fnref)
    (leading in_ : list value) (receiver : value) :
  ∃ v,
    first_event
      (runOriginalFunction app name (VFun t) (leading ++ [receiver]) in_)
    = Some (EOriginal (VFun t) v)
    ∧ length v = max (length in_) (S (length leading))
    ∧ v !! length leading
      = Some (VOriginalCallback name (VFun t) (leading ++ [receiver]) in_)
    ∧ (∀ i, i ≠ length leading → i < length in_ → v !! i = in_ !! i)
    ∧ (∀ i, length in_ ≤ i → i < length leading → v !! i = Some VUndefined).
Proof.
  eexists. split; [apply first_event_original|].
  replace (Z.of_nat (length (leading ++ [receiver])) - 1)%Z
    with (Z.of_nat (length leading)) by (rewrite length_app; simpl; lia).
  apply array_set_layout.
Qed.

(** X16.  A before-hook that passes a single value that is neither [null] nor
    [undefined] nor an [Error] (say [next('warn')]) does not abort the
    call, and it does not forward the arguments either: the chain goes on
    with an empty array, so that the method, when no before-hook remains,
    is applied to [undefined] in every leading slot. *)
Theorem lone_value_clears_the_arguments
    (fn_length : fnref → nat) (fn_body : fnref → list value → list invocation)
    (this : host) (name : string) (t : fnref) (bs : list fnref)
    (leading in_ : list value) (receiver e : value) (i F : nat) :
  _getBeforeHooks this name = Some bs →
  length bs ≤ i + 1 →
  is_nullish e = false →
  instanceof_Error e = false →
  first_event
    (js_apply fn_length fn_body this (S F)
       (VBeforeNext name (VFun t) (i + 1) (leading ++ [receiver]) in_) [e])
  = Some (EOriginal (VFun t)
            (replicate (length leading) VUndefined ++
             [VOriginalCallback name (VFun t) (leading ++ [receiver]) []])).
Proof.
  intros Hbs Hi Hnull He.
  rewrite js_apply_before_next. unfold beforeNext, passes_arguments.
  change (first_parameter [e]) with e. rewrite Hnull. simpl negb. cbv iota.
  rewrite orb_true_r.
  rewrite (runBeforeHook_end fn_length this name (VFun t) bs Hbs) by done.
  rewrite first_event_original. do 2 f_equal.
  unfold array_set, shifted. simpl tail.
  destruct (Z.ltb_spec (Z.of_nat (length (leading ++ [receiver])) - 1) 0)
    as [H|_]; [rewrite length_app in H; simpl in H; lia|].
  replace (Z.to_nat (Z.of_nat (length (leading ++ [receiver])) - 1))
    with (length leading) by (rewrite length_app; simpl; lia).
  simpl. by rewrite Nat.sub_0_r.
Qed.

Lemma lone_value_clears_the_arguments_witness :
  first_event
    (js_apply Bench.fn_length Bench.fn_body
       (Lab.hooked Bench.save [Bench.warn] []) 1
       (VBeforeNext "save" (VFun Bench.save) (0 + 1)
          ([VStr "x"; VStr "y"] ++ [VFun Bench.callback]) Bench.call)
       [VStr "warn"])
  = Some (EOriginal (VFun Bench.save)
            (replicate (length [VStr "x"; VStr "y"]) VUndefined ++
             [VOriginalCallback "save" (VFun Bench.save)
                ([VStr "x"; VStr "y"] ++ [VFun Bench.callback]) []])).
Proof.
  apply (lone_value_clears_the_arguments Bench.fn_length Bench.fn_body
           (Lab.hooked Bench.save [Bench.warn] []) "save" Bench.save
           [Bench.warn] [VStr "x"; VStr "y"] Bench.call (VFun Bench.callback)
           (VStr "warn") 0 0);
    [reflexivity | simpl; lia | reflexivity | reflexivity].
Defined.

(** ** Calls and hooks that break the contract *)

(** X17.  A hooked method called with no arguments at all: the first before-hook
    is applied to no arguments, its continuation is nowhere among them, and
    a hook that calls what it takes for its continuation throws a
    TypeError; the caller hears nothing more.  With no before-hook the
    method itself is applied to no arguments, so it has no callback to
    call. *)
Theorem call_without_arguments
    (fn_length : fnref → nat) (fn_body : fnref → list value → list invocation)
    (this : host) (name : string) (t : fnref) (bs as_ : list fnref)
    (fuel : nat) :
  installed this name t bs as_ →
  3 ≤ fuel →
  (∀ f, bs !! 0 = Some f →
     has_parameters fn_length f →
     calls_next_once fn_body f →
     call_method fn_length fn_body this fuel name []
     = ([EBefore 0 f []], Threw (TypeError "not a function")))
  ∧ (bs = [] →
     first_event (call_method fn_length fn_body this fuel name [])
     = Some (EOriginal (VFun t) [])).
Proof.
  intros (Hbs & _ & Hm) Hfuel.
  destruct fuel as [|[|[|F]]]; try lia.
  assert (call_method fn_length fn_body this (S (S (S F))) name []
          = runBeforeHook fn_length this
              (js_apply fn_length fn_body this (S (S F))) name (VFun t)
              VNull 0 [] []) as Hcall.
  { unfold call_method, get_method. by rewrite Hm. }
  rewrite Hcall. split.
  - intros f Hf Hlen Hnext.
    rewrite (runBeforeHook_hook fn_length this name (VFun t) bs Hbs _ _ _ f)
      by done.
    change (array_set [] (Z.of_nat (length (@nil value)) - 1) _) with (@nil value).
    destruct (Hnext []) as [c Hc].
    by rewrite (js_apply_once _ _ _ _ _ _ _ _ Hc).
  - intros ->.
    by rewrite (runBeforeHook_end fn_length this name (VFun t) [] Hbs).
Qed.

Lemma call_without_arguments_witness :
  call_method Lab.fn_length Lab.fn_body
    (Lab.hooked Lab.save [Lab.pass1] []) 3 "save" []
  = ([EBefore 0 Lab.pass1 []], Threw (TypeError "not a function")).
Proof.
  apply (call_without_arguments Lab.fn_length Lab.fn_body
           (Lab.hooked Lab.save [Lab.pass1] []) "save" Lab.save
           [Lab.pass1] [] 3 ltac:(lab_installed) ltac:(lia)).
  - reflexivity.
  - discriminate.
  - fixed_behaviour.
Defined.

(** X18.  When the last argument of the call is not a function, an error a
    before-hook reports has nowhere to go: the call throws a TypeError at
    the point of delivery, after the hooks up to the reporting one ran. *)
Theorem error_without_callback_throws
    (fn_length : fnref → nat) (fn_body : fnref → list value → list invocation)
    (this : host) (name : string) (t : fnref) (bs as_ : list fnref)
    (leading : list value) (x : value) (i : nat) (f : fnref) (e : value)
    (fuel : nat) :
  installed this name t bs as_ →
  is_function x = false →
  bs !! i = Some f →
  Forall (has_parameters fn_length) (take (S i) bs) →
  Forall (continues fn_body) (take i bs) →
  reports fn_body f e →
  2 * i + 3 ≤ fuel →
  ∃ tr,
    call_method fn_length fn_body this fuel name (leading ++ [x])
    = (tr, Threw (TypeError "not a function"))
    ∧ stages tr = imap SBefore (take (S i) bs)
    ∧ callbacks tr = [].
Proof.
  intros (Hbs & _ & Hm) Hx Hi Hpar Hcont [He Hf] Hfuel.
  pose (F := fuel - (2 * i + 3)).
  replace fuel with (S (2 * i + S (S F))) by (unfold F; lia).
  assert (i < length bs) as Hlt by (by apply lookup_lt_Some in Hi).
  rewrite (take_S_r _ _ _ Hi) in Hpar |- *.
  apply Forall_app in Hpar as [Hpar Hlen]. apply Forall_inv in Hlen.
  assert (call_method fn_length fn_body this (S (2 * i + S (S F))) name
            (leading ++ [x])
          = runBeforeHook fn_length this
              (js_apply fn_length fn_body this (2 * i + S (S F))) name (VFun t)
              VNull 0 (leading ++ [x]) (leading ++ [x])) as Hcall.
  { unfold call_method, get_method. by rewrite Hm. }
  rewrite Hcall.
  destruct (before_prefix fn_length fn_body this name (VFun t) bs Hbs
              (leading ++ [x]) leading x eq_refl
              (take i bs) (drop i bs) 0 VNull (leading ++ [x]) (S (S F)))
    as (tr & error & in_ & Heq & Herr & Hst & Hcbs & _); try done.
  { by rewrite take_drop. }
  rewrite length_take, Nat.min_l, Nat.add_0_l in Heq by lia.
  rewrite Heq.
  rewrite (runBeforeHook_hook fn_length this name (VFun t) bs Hbs _ _ _ f)
    by (done || exact Hlen).
  rewrite (replace_last_slot _ leading x _ eq_refl).
  destruct (Hf (leading ++ [VBeforeNext name (VFun t) (i + 1)
                              (leading ++ [x]) in_])) as [rest Hc].
  rewrite last_slot_snoc in Hc.
  rewrite (js_apply_once _ _ _ _ _ _ _ _ Hc), js_apply_before_next.
  unfold beforeNext. change (first_parameter (e :: rest)) with e.
  rewrite runBeforeHook_error by done.
  rewrite last_slot_snoc. unfold apply_logged. rewrite Hx.
  rewrite prepend_prepend. unfold prepend, throw. simpl.
  eexists. split; [reflexivity|].
  rewrite app_nil_r, stages_app, callbacks_app, Hst, Hcbs. simpl.
  rewrite imap_app. simpl. by rewrite length_take, Nat.min_l, Nat.add_0_r by lia.
Qed.

Lemma error_without_callback_throws_witness :
  ∃ tr,
    call_method Lab.fn_length Lab.fn_body
      (Lab.hooked Lab.save [Lab.pass1; Lab.failing] []) 5 "save"
      ([VStr "x"] ++ [VStr "y"])
    = (tr, Threw (TypeError "not a function"))
    ∧ stages tr = imap SBefore (take 2 [Lab.pass1; Lab.failing])
    ∧ callbacks tr = [].
Proof.
  apply (error_without_callback_throws Lab.fn_length Lab.fn_body
           (Lab.hooked Lab.save [Lab.pass1; Lab.failing] []) "save" Lab.save
           [Lab.pass1; Lab.failing] [] [VStr "x"] (VStr "y") 1 Lab.failing
           (VError "boom") 5).
  - lab_installed.
  - reflexivity.
  - reflexivity.
  - lab_hooks.
  - lab_hooks.
  - split; [reflexivity | fixed_behaviour].
  - simpl. lia.
Defined.

(** X19.  A hook that returns without calling its continuation ends the call
    there: the call returns, no later hook and not the method runs, and the
    caller's callback is never invoked.  The engine has no timeout and no
    other path to the callback. *)
Theorem stalled_hook_ends_the_call
    (fn_length : fnref → nat) (fn_body : fnref → list value → list invocation)
    (this : host) (name : string) (t cb : fnref) (bs as_ : list fnref)
    (leading : list value) (i : nat) (f : fnref) (fuel : nat) :
  installed this name t bs as_ →
  bs !! i = Some f →
  Forall (has_parameters fn_length) (take (S i) bs) →
  Forall (continues fn_body) (take i bs) →
  stalls fn_body f →
  2 * i + 2 ≤ fuel →
  ∃ tr,
    call_method fn_length fn_body this fuel name (leading ++ [VFun cb])
    = (tr, Returned)
    ∧ stages tr = imap SBefore (take (S i) bs)
    ∧ callbacks tr = [].
Proof.
  intros Hinst Hi Hpar Hcont Hf Hfuel.
  pose (F := fuel - (2 * i + 2)).
  replace fuel with (S (2 * i + S F)) by (unfold F; lia).
  assert (i < length bs) as Hlt by (by apply lookup_lt_Some in Hi).
  rewrite (take_S_r _ _ _ Hi) in Hpar |- *.
  apply Forall_app in Hpar as [Hpar Hlen]. apply Forall_inv in Hlen.
  destruct (call_reaches_before fn_length fn_body this name t cb bs as_
              leading Hinst i (S F))
    as (tr & error & in_ & Heq & Herr & Hst & Hcbs & _); try done; [lia|].
  destruct Hinst as (Hbs & _ & _).
  rewrite Heq.
  rewrite (runBeforeHook_hook fn_length this name (VFun t) bs Hbs _ _ _ f)
    by (done || exact Hlen).
  rewrite js_apply_quiet by apply Hf.
  rewrite prepend_prepend. unfold prepend, skip. simpl.
  eexists. split; [reflexivity|].
  rewrite app_nil_r, stages_app, callbacks_app, Hst, Hcbs. simpl.
  rewrite imap_app. simpl. by rewrite length_take, Nat.min_l, Nat.add_0_r by lia.
Qed.

Lemma stalled_hook_ends_the_call_witness :
  ∃ tr,
    call_method Bench.fn_length Bench.fn_body
      (Lab.hooked Bench.save [Bench.forward; Bench.stall; Bench.forward] [])
      4 "save" ([VStr "x"; VStr "y"] ++ [VFun Bench.callback])
    = (tr, Returned)
    ∧ stages tr
      = imap SBefore (take 2 [Bench.forward; Bench.stall; Bench.forward])
    ∧ callbacks tr = [].
Proof.
  apply (stalled_hook_ends_the_call Bench.fn_length Bench.fn_body
           (Lab.hooked Bench.save [Bench.forward; Bench.stall; Bench.forward] [])
           "save" Bench.save Bench.callback
           [Bench.forward; Bench.stall; Bench.forward] []
           [VStr "x"; VStr "y"] 1 Bench.stall 4).
  - lab_installed.
  - reflexivity.
  - lab_hooks.
  - lab_hooks.
  - intros v. reflexivity.
  - simpl. lia.
Defined.

Lemma js_apply_user (fn_length : fnref → nat)
    (fn_body : fnref → list value → list invocation) (this : host)
    (F : nat) (f : fnref) (v : list value) :
  js_apply fn_length fn_body this (S F) (VFun f) v
  = for_each (fn_body f v) (λ c, js_apply fn_length fn_body this F c.1 c.2).
Proof. reflexivity. Qed.

Lemma one_target_then_after_hooks (tr : list event) (hooks : list stage) :
  stages tr = STarget :: hooks →
  filter (λ s, s = STarget) hooks = [] →
  target_runs tr = 1.
Proof.
  intros Hst Hnone. unfold target_runs. rewrite Hst.
  rewrite filter_cons_True by done. by rewrite Hnone.
Qed.

(** X20.  A hook that calls its continuation twice runs the rest of the chain
    twice: with one such before-hook the method is executed twice and the
    caller's callback is invoked twice, with the same arguments.  Nothing
    in the engine makes a continuation single-use. *)
Theorem continuation_called_twice
    (fn_length : fnref → nat) (fn_body : fnref → list value → list invocation)
    (this : host) (name : string) (t cb f : fnref) (as_ : list fnref)
    (leading : list value) (fuel : nat) :
  installed this name t [f] as_ →
  has_parameters fn_length f →
  calls_next_twice fn_body f →
  Forall (has_parameters fn_length) as_ →
  Forall (calls_next_once fn_body) as_ →
  calls_back_once fn_body (length (leading ++ [VFun cb])) t →
  returns_quietly fn_body cb →
  2 * length as_ + 6 ≤ fuel →
  ∃ tr d,
    call_method fn_length fn_body this fuel name (leading ++ [VFun cb])
    = (tr, Returned)
    ∧ callbacks tr = [(VFun cb, d); (VFun cb, d)]
    ∧ target_runs tr = 2.
Proof.
  intros Hinst Hlen Hf Hpar Honce Ht Hcb Hfuel.
  pose proof Hinst as (Hbs & Has & _).
  pose (F := fuel - (2 * length as_ + 6)).
  replace fuel with (S (S (S (S (S (2 * length as_ + S F))))))
    by (unfold F; lia).
  rewrite (call_method_wrapper fn_length fn_body this name t cb [f] as_
             leading Hinst).
  rewrite (runBeforeHook_hook fn_length this name (VFun t) [f] Hbs _ _ _ f)
    by done.
  rewrite (replace_last_slot _ leading (VFun cb) _ eq_refl).
  pose proof (Hf (leading ++ [VBeforeNext name (VFun t) (0 + 1)
                                (leading ++ [VFun cb]) (leading ++ [VFun cb])]))
    as Hc.
  rewrite last_slot_snoc in Hc.
  assert (∃ tr1 d,
            js_apply fn_length fn_body this (S (S (S (2 * length as_ + S F))))
              (VBeforeNext name (VFun t) (0 + 1)
                 (leading ++ [VFun cb]) (leading ++ [VFun cb])) []
            = (tr1, Returned)
            ∧ callbacks tr1 = [(VFun cb, d)]
            ∧ target_runs tr1 = 1) as (tr1 & d & Hrest & Hcbs & Hruns).
  { rewrite js_apply_before_next. unfold beforeNext.
    change (passes_arguments []) with false. cbv iota.
    rewrite (runBeforeHook_end fn_length this name (VFun t) [f] Hbs)
      by (done || simpl; lia).
    destruct (Ht (array_set (leading ++ [VFun cb])
                    (Z.of_nat (length (leading ++ [VFun cb])) - 1)
                    (VOriginalCallback name (VFun t) (leading ++ [VFun cb])
                       (leading ++ [VFun cb])))) as [c Hct].
    rewrite (target_slot (leading ++ [VFun cb]) leading (VFun cb) eq_refl)
      in Hct.
    rewrite (target_step fn_length fn_body this name (VFun t) _
               leading (VFun cb) eq_refl t _ c _ eq_refl Hct).
    destruct (after_all fn_length fn_body this name (VFun t) as_ Has
                (leading ++ [VFun cb]) cb (first_parameter c)
                (if 0 <? length c then c else leading ++ [VFun cb]) F
                Honce Hpar Hcb)
      as (tr' & d & Heq' & Hcbs' & Hst' & _).
    rewrite Heq', prepend_pair. eexists _, d. split; [reflexivity|].
    split; [by rewrite callbacks_app, Hcbs'|].
    eapply one_target_then_after_hooks.
    - rewrite stages_app, Hst'. reflexivity.
    - destruct (instanceof_Error (first_parameter c)); [done|].
      by apply no_target_among_hooks. }
  rewrite (js_apply_user fn_length fn_body this), Hc.
  cbn [for_each fst snd]. rewrite Hrest.
  replace ((tr1, Returned) >>> (tr1, Returned) >>> skip)
    with (tr1 ++ tr1, Returned)
    by (unfold and_then, skip; simpl; by rewrite app_nil_r).
  rewrite prepend_pair. eexists _, d. split; [reflexivity|].
  rewrite !callbacks_app, Hcbs. split; [done|].
  unfold target_runs in *. rewrite !stages_app, !filter_app, !length_app.
  rewrite Hruns. reflexivity.
Qed.

Lemma continuation_called_twice_witness :
  ∃ tr d,
    call_method Bench.fn_length Bench.fn_body
      (Lab.hooked Bench.save [Bench.twice] [Bench.forward]) 8 "save"
      ([VStr "x"; VStr "y"] ++ [VFun Bench.callback])
    = (tr, Returned)
    ∧ callbacks tr = [(VFun Bench.callback, d); (VFun Bench.callback, d)]
    ∧ target_runs tr = 2.
Proof.
  apply (continuation_called_twice Bench.fn_length Bench.fn_body
           (Lab.hooked Bench.save [Bench.twice] [Bench.forward]) "save"
           Bench.save Bench.callback Bench.twice [Bench.forward]
           [VStr "x"; VStr "y"] 8).
  - lab_installed.
  - discriminate.
  - intros v. reflexivity.
  - lab_hooks.
  - lab_hooks.
  - fixed_behaviour.
  - intros a. reflexivity.
  - simpl. lia.
Defined.

(** ** The three ways a call can go *)

Lemma first_parameter_Error (c : list value) :
  instanceof_Error (first_parameter c) = true →
  ∃ e rest, c = e :: rest ∧ instanceof_Error e = true.
Proof. destruct c as [|e rest]; [done|]. intros He. by exists e, rest. Qed.

Section Paths.
Variable fn_length : fnref → nat.
Variable fn_body : fnref → list value → list invocation.
Variable this : host.
Variables (name : string) (t cb : fnref) (bs as_ : list fnref).
Variable leading : list value.
Hypothesis Hinstalled : installed this name t bs as_.
Hypothesis Hcb : returns_quietly fn_body cb.

Local Abbreviation interp := (js_apply fn_length fn_body this).
Local Abbreviation original := (leading ++ [VFun cb]).

(** The after-chain, entered without an error: every after-hook runs, and
    the delivery to the caller's callback comes last. *)
Lemma after_chain_ends_with_delivery (error : value) (vec : list value)
    (F : nat) :
  instanceof_Error error = false →
  Forall (calls_next_once fn_body) as_ →
  Forall (has_parameters fn_length) as_ →
  ∃ tr d,
    runAfterHook fn_length this (interp (2 * length as_ + S F))
      name (VFun t) error 0 (VFun cb) vec
    = (tr ++ [ECallback (VFun cb) d], Returned)
    ∧ callbacks tr = []
    ∧ stages tr = imap SAfter as_.
Proof.
  intros He Honce Hpar. destruct Hinstalled as (_ & Has & _).
  destruct (after_prefix fn_length fn_body this name (VFun t) as_ Has
              original (VFun cb) as_ [] 0 error vec (S F))
    as (tr & vec' & Heq & Hst & Hcbs & _); try done.
  { by rewrite app_nil_r. }
  rewrite Heq.
  rewrite (runAfterHook_end fn_length this name (VFun t) as_ Has)
    by (done || simpl; lia).
  rewrite deliver by done.
  exists tr, vec'. by rewrite prepend_pair.
Qed.

Lemma chain_paths (suffix : list fnref) :
  ∀ i error in_ F,
    drop i bs = suffix →
    instanceof_Error error = false →
    Forall (calls_next_once fn_body) suffix →
    Forall (has_parameters fn_length) suffix →
    calls_back_once fn_body (length original) t →
    Forall (calls_next_once fn_body) as_ →
    Forall (has_parameters fn_length) as_ →
    ∃ tr d,
      runBeforeHook fn_length this
        (interp (2 * length suffix + S (S (2 * length as_ + S F))))
        name (VFun t) error i original in_
      = (tr ++ [ECallback (VFun cb) d], Returned)
      ∧ callbacks tr = []
      ∧ ((∃ k f v e rest,
            suffix !! k = Some f
            ∧ last tr = Some (EBefore (i + k) f v)
            ∧ fn_body f v = [(last_slot v, e :: rest)]
            ∧ instanceof_Error e = true
            ∧ stages tr = imap (λ j g, SBefore (i + j) g) (take (S k) suffix)
            ∧ d = [e])
         ∨ (∃ v e rest,
              last tr = Some (EOriginal (VFun t) v)
              ∧ fn_body t v
                = [(array_get v (Z.of_nat (length original) - 1), e :: rest)]
              ∧ instanceof_Error e = true
              ∧ stages tr = imap (λ j g, SBefore (i + j) g) suffix ++ [STarget]
              ∧ d = [e])
         ∨ (∃ v c,
              EOriginal (VFun t) v ∈ tr
              ∧ fn_body t v
                = [(array_get v (Z.of_nat (length original) - 1), c)]
              ∧ instanceof_Error (first_parameter c) = false
              ∧ stages tr
                = imap (λ j g, SBefore (i + j) g) suffix ++ [STarget]
                  ++ imap SAfter as_)).
Proof.
  pose proof Hinstalled as (Hbs & Has & _).
  induction suffix as [|f suffix IH];
    intros i error in_ F Hdrop He Honce Hpar Ht Honce' Hpar'.
  - cbn [length]. rewrite Nat.mul_0_r, Nat.add_0_l.
    rewrite (runBeforeHook_end fn_length this name (VFun t) bs Hbs) by
      (done || apply (f_equal length) in Hdrop;
               rewrite length_drop in Hdrop; simpl in Hdrop; lia).
    destruct (Ht (array_set in_ (Z.of_nat (length original) - 1)
                    (VOriginalCallback name (VFun t) original in_)))
      as [c Hraw].
    pose proof Hraw as Hc.
    rewrite (target_slot original leading (VFun cb) eq_refl) in Hc.
    rewrite (target_step fn_length fn_body this name (VFun t) original
               leading (VFun cb) eq_refl t in_ c _ eq_refl Hc).
    destruct (instanceof_Error (first_parameter c)) eqn:Hfirst.
    + destruct (first_parameter_Error c Hfirst) as (e & rest & -> & Herr).
      change (first_parameter (e :: rest)) with e.
      replace (2 * length as_ + S F) with (S (2 * length as_ + F)) by lia.
      rewrite runAfterHook_error by done.
      rewrite deliver by done.
      rewrite prepend_pair. eexists [_], [e]. split; [reflexivity|].
      split; [done|]. right. left. eexists _, e, rest. done.
    + destruct (after_chain_ends_with_delivery (first_parameter c)
                  (if 0 <? length c then c else in_) F Hfirst Honce' Hpar')
        as (tr' & d & Heq' & Hcbs' & Hst').
      rewrite Heq', prepend_pair. eexists (_ :: tr'), d.
      split; [reflexivity|]. split; [done|]. right. right.
      eexists _, c. split; [left|]. split; [exact Hraw|]. split; [done|].
      cbn. unfold stages in Hst'. by rewrite Hst'.
  - apply drop_cons_inv in Hdrop as [Hi Hdrop].
    apply Forall_cons in Honce as [Hf Honce].
    apply Forall_cons in Hpar as [Hlen Hpar].
    replace (2 * length (f :: suffix) + S (S (2 * length as_ + S F)))
      with (S (S (2 * length suffix + S (S (2 * length as_ + S F)))))
      by (simpl; lia).
    rewrite (runBeforeHook_hook fn_length this name (VFun t) bs Hbs _ _ _ f)
      by done.
    rewrite (replace_last_slot original leading (VFun cb) _ eq_refl).
    destruct (Hf (leading ++ [VBeforeNext name (VFun t) (i + 1)
                                original in_])) as [c Hraw].
    pose proof Hraw as Hc.
    rewrite last_slot_snoc in Hc.
    rewrite (js_apply_once _ _ _ _ _ _ _ _ Hc).
    rewrite js_apply_before_next. unfold beforeNext.
    destruct (instanceof_Error (first_parameter c)) eqn:Hfirst.
    + destruct (first_parameter_Error c Hfirst) as (e & rest & -> & Herr).
      change (first_parameter (e :: rest)) with e.
      replace (2 * length suffix + S (S (2 * length as_ + S F)))
        with (S (2 * length suffix + S (2 * length as_ + S F))) by lia.
      rewrite (before_error_delivers fn_length fn_body this name t cb leading
                 Hcb) by done.
      rewrite prepend_pair. eexists [_], [e]. split; [reflexivity|].
      split; [done|]. left. exists 0, f. eexists _, e, rest.
      rewrite Nat.add_0_r. split; [done|]. split; [done|].
      split; [exact Hraw|]. split; [done|]. split; [|done].
      cbn. by rewrite Nat.add_0_r.
    + destruct (IH (i + 1) (first_parameter c)
                  (if passes_arguments c then shifted c else in_) F)
        as (tr & d & Heq & Hcbs & Hpath); try done.
      rewrite Heq, prepend_pair. eexists (_ :: tr), d.
      split; [reflexivity|]. split; [done|].
      assert (∀ l : list fnref,
                imap (λ j g, SBefore (i + j) g) (f :: l)
                = SBefore i f :: imap (λ j g, SBefore (i + 1 + j) g) l)
        as Hshift.
      { intros l. cbn. rewrite Nat.add_0_r. f_equal.
        apply imap_ext. intros j g _. simpl. f_equal. lia. }
      destruct Hpath as [(k & g & v & e & rest & Hk & Hlast & Hg & Herr & Hst & ->)
                        |[(v & e & rest & Hlast & Hg & Herr & Hst & ->)
                         |(v & c' & Hin & Hg & Hok & Hst)]].
      * left. exists (S k), g, v, e, rest. split; [done|].
        split.
        { destruct tr as [|x tr]; [done|].
          replace (i + S k) with (i + 1 + k) by lia. exact Hlast. }
        split; [done|]. split; [done|]. split; [|done].
        cbn [take]. rewrite Hshift. cbn. unfold stages in Hst. by rewrite Hst.
      * right. left. exists v, e, rest.
        split; [by destruct tr|]. split; [done|]. split; [done|].
        split; [|done]. rewrite Hshift. cbn. unfold stages in Hst.
        by rewrite Hst.
      * right. right. exists v, c'. split; [by right|]. split; [done|].
        split; [done|]. rewrite Hshift. cbn. unfold stages in Hst.
        by rewrite Hst.
Qed.
End Paths.

(** X21.  Every before-hook calls its continuation once, whatever it passes,
    the method fires its callback once, whatever it passes, and the
    after-hooks continue.  Then the call returns, the one delivery to the
    caller's callback is the last thing that happens, and the call went one
    of three ways.  A before-hook passed an [Error] first: it is the last
    function executed, the hooks ahead of it ran and nothing else, and the
    callback gets that error alone.  Or the method passed an [Error] first
    to its callback: all before-hooks and the method ran, no after-hook,
    and the callback gets that error alone.  Or the method reported no
    error: the before-hooks, the method and the after-hooks all ran, in
    that order. *)
Theorem call_takes_one_of_three_paths
    (fn_length : fnref → nat) (fn_body : fnref → list value → list invocation)
    (this : host) (name : string) (t cb : fnref) (bs as_ : list fnref)
    (leading : list value) (fuel : nat) :
  installed this name t bs as_ →
  Forall (has_parameters fn_length) (bs ++ as_) →
  Forall (calls_next_once fn_body) bs →
  Forall (continues fn_body) as_ →
  calls_back_once fn_body (length (leading ++ [VFun cb])) t →
  returns_quietly fn_body cb →
  2 * length bs + 2 * length as_ + 4 ≤ fuel →
  ∃ tr d,
    call_method fn_length fn_body this fuel name (leading ++ [VFun cb])
    = (tr ++ [ECallback (VFun cb) d], Returned)
    ∧ callbacks tr = []
    ∧ ((∃ i f v e rest,
          bs !! i = Some f
          ∧ last tr = Some (EBefore i f v)
          ∧ fn_body f v = [(last_slot v, e :: rest)]
          ∧ instanceof_Error e = true
          ∧ stages tr = imap SBefore (take (S i) bs)
          ∧ d = [e])
       ∨ (∃ v e rest,
            last tr = Some (EOriginal (VFun t) v)
            ∧ fn_body t v
              = [(array_get v (Z.of_nat (length (leading ++ [VFun cb])) - 1),
                  e :: rest)]
            ∧ instanceof_Error e = true
            ∧ stages tr = imap SBefore bs ++ [STarget]
            ∧ d = [e])
       ∨ (∃ v c,
            EOriginal (VFun t) v ∈ tr
            ∧ fn_body t v
              = [(array_get v (Z.of_nat (length (leading ++ [VFun cb])) - 1),
                  c)]
            ∧ instanceof_Error (first_parameter c) = false
            ∧ stages tr = imap SBefore bs ++ [STarget] ++ imap SAfter as_)).
Proof.
  intros Hinst Hpar Honce Hcont Ht Hcb Hfuel.
  apply Forall_app in Hpar as [Hpar Hpar'].
  assert (Forall (calls_next_once fn_body) as_) as Honce'.
  { eapply Forall_impl; [exact Hcont|].
    intros f Hf v. destruct (Hf v) as (c & Hc & _). eauto. }
  pose (F := fuel - (2 * length bs + 2 * length as_ + 4)).
  replace fuel with (S (2 * length bs + S (S (2 * length as_ + S F))))
    by (unfold F; lia).
  rewrite (call_method_wrapper fn_length fn_body this name t cb bs as_
             leading Hinst).
  destruct (chain_paths fn_length fn_body this name t cb bs as_ leading
              Hinst Hcb bs 0 VNull (leading ++ [VFun cb]) F)
    as (tr & d & Heq & Hcbs & Hpath); try done.
  exists tr, d. split; [done|]. split; [done|].
  assert (∀ l : list fnref, imap (λ j g, SBefore (0 + j) g) l = imap SBefore l)
    as Hzero by (intros l; by apply imap_ext).
  rewrite !Hzero in Hpath.
  destruct Hpath as [(k & g & v & e & rest & Hk & Hlast & Hg & Herr & Hst & ->)
                    |[Htarget|Hall]].
  - left. exists k, g, v, e, rest. rewrite Hzero in Hst. done.
  - right. by left.
  - right. by right.
Qed.

Lemma call_takes_one_of_three_paths_witness :
  ∃ tr d,
    call_method Lab.fn_length Lab.fn_body
      (Lab.hooked Lab.save_error [Lab.pass1; Lab.override] [Lab.pass3])
      12 "save" ([VStr "x"; VStr "y"] ++ [VFun Lab.callback])
    = (tr ++ [ECallback (VFun Lab.callback) d], Returned)
    ∧ callbacks tr = []
    ∧ ((∃ i f v e rest,
          [Lab.pass1; Lab.override] !! i = Some f
          ∧ last tr = Some (EBefore i f v)
          ∧ Lab.fn_body f v = [(last_slot v, e :: rest)]
          ∧ instanceof_Error e = true
          ∧ stages tr = imap SBefore (take (S i) [Lab.pass1; Lab.override])
          ∧ d = [e])
       ∨ (∃ v e rest,
            last tr = Some (EOriginal (VFun Lab.save_error) v)
            ∧ Lab.fn_body Lab.save_error v
              = [(array_get v
                    (Z.of_nat (length ([VStr "x"; VStr "y"]
                                       ++ [VFun Lab.callback])) - 1),
                  e :: rest)]
            ∧ instanceof_Error e = true
            ∧ stages tr = imap SBefore [Lab.pass1; Lab.override] ++ [STarget]
            ∧ d = [e])
       ∨ (∃ v c,
            EOriginal (VFun Lab.save_error) v ∈ tr
            ∧ Lab.fn_body Lab.save_error v
              = [(array_get v
                    (Z.of_nat (length ([VStr "x"; VStr "y"]
                                       ++ [VFun Lab.callback])) - 1),
                  c)]
            ∧ instanceof_Error (first_parameter c) = false
            ∧ stages tr
              = imap SBefore [Lab.pass1; Lab.override] ++ [STarget]
                ++ imap SAfter [Lab.pass3])).
Proof.
  apply (call_takes_one_of_three_paths Lab.fn_length Lab.fn_body
           (Lab.hooked Lab.save_error [Lab.pass1; Lab.override] [Lab.pass3])
           "save" Lab.save_error Lab.callback
           [Lab.pass1; Lab.override] [Lab.pass3]).
  - lab_installed.
  - lab_hooks.
  - lab_hooks.
  - lab_hooks.
  - fixed_behaviour.
  - intros a. reflexivity.
  - simpl. lia.
Defined.
